(** * VolView: utilities, polygon rasterisation and the segment list

    A shallow embedding of
    - the array, object and byte helpers of the utility module,
    - the grid accessor and [rasterize] of [PolygonTool.vue],
    - the selection watcher, the toggles and the edit dialog of
      [SegmentList.vue],
    together with the properties stated about them.

    JavaScript numbers that hold array lengths, voxel indices, segment
    values and colour channels are integers in this code and are modelled
    as [Z]; the opacity of the edit dialog is a fraction and is a binary64
    number, with the arithmetic of IEEE 754; [null] and [undefined] are
    both [None]. *)

From stdpp Require Import base option list gmap strings fin_maps.
From Stdlib Require Import ZArith QArith Qminmax SpecFloat Lia.

Open Scope Z_scope.

(** ** Utility functions *)

Module Utils.

Section Arrays.
Context {T : Type}.

(** [partition]: one pass over [arr]; every element is pushed on the
    back of slot 0 when the predicate holds and of slot 1 otherwise. *)
Definition partition (predicate : T → bool) (arr : list T) : list T * list T :=
  foldl
    (λ partitioned val,
       if predicate val
       then (partitioned.1 ++ [val], partitioned.2)
       else (partitioned.1, partitioned.2 ++ [val]))
    ([], []) arr.

(** [Array.prototype.slice(start, end)] with both arguments given:
    a negative argument counts from the end, everything is clamped to
    the array. *)
Definition slice (arr : list T) (start end_ : Z) : list T :=
  let len := Z.of_nat (length arr) in
  let k := if start <? 0 then Z.max (len + start) 0 else Z.min start len in
  let final := if end_ <? 0 then Z.max (len + end_) 0 else Z.min end_ len in
  take (Z.to_nat (final - k)) (drop (Z.to_nat k) arr).

(** [Math.ceil(a / b)] on integers, [b] not zero. *)
Definition ceil_div (a b : Z) : Z := - ((- a) / b).

(** [chunk]: [Array.from({ length: Math.ceil(arr.length / size) }, f)]
    with [f i = arr.slice(i * size, i * size + size)].  Dividing by zero
    gives [NaN] for the empty array (length coerced to 0) and [Infinity]
    otherwise, where [Array.from] raises a [RangeError] ([None]); a
    negative length is coerced to 0 ([seqZ] is empty there). *)
Definition chunk (arr : list T) (size : Z) : option (list (list T)) :=
  let len := Z.of_nat (length arr) in
  if size =? 0 then
    if len =? 0 then Some [] else None
  else
    let n := ceil_div len size in
    Some ((λ i, slice arr (i * size) (i * size + size)) <$> seqZ 0 n).

End Arrays.

(** [normalizeForStore(objects, key)]: the keys in order, and the objects
    by key (a later object replaces an earlier one with the same key). *)
Definition normalizeForStore {T K : Type} `{Countable K}
    (objects : list T) (key : T → K) : list K * gmap K T :=
  let order := key <$> objects in
  let byKey := foldl (λ acc obj, <[key obj := obj]> acc) ∅ objects in
  (order, byKey).

Section MoreArrays.
Context {T : Type}.

(** [arr.indexOf(el)]: the first index holding [el], or -1. *)
Definition indexOf `{EqDecision T} (arr : list T) (el : T) : Z :=
  match list_find (λ x, x = el) arr with
  | Some (idx, _) => Z.of_nat idx
  | None => -1
  end.

(** [removeFromArray]: the array is changed in place; the result is its
    new content.  [arr.splice(idx, 1)] takes out the element at [idx]. *)
Definition removeFromArray `{EqDecision T} (arr : list T) (el : T) : list T :=
  let idx := indexOf arr el in
  if idx >? -1 then delete (Z.to_nat idx) arr else arr.

(** [arrayEqualsWithComparator]: after the test of the lengths, the loop
    compares [a[i]] with [b[i]] for every index and stops at the first
    pair that fails. *)
Definition arrayEqualsWithComparator (a b : list T) (cmp : T → T → bool) : bool :=
  if negb (length a =? length b)%nat then false
  else forallb (λ ab, cmp ab.1 ab.2) (zip a b).

(** [arrayEquals]: the same loop with [!==] as the test. *)
Definition arrayEquals `{EqDecision T} (a b : list T) : bool :=
  if negb (length a =? length b)%nat then false
  else forallb (λ ab, bool_decide (ab.1 = ab.2)) (zip a b).

(** [wrapInArray]: a value of type [T | T[]] is an array ([inl]) or a
    single value ([inr]). *)
Definition wrapInArray (maybeArray : list T + T) : list T :=
  match maybeArray with
  | inl arr => arr
  | inr x => [x]
  end.

End MoreArrays.

(** [clampValue]: [Math.min(max, Math.max(min, value))].  [Math.min] and
    [Math.max] return one of their arguments, so rationals stand for the
    finite numbers exactly. *)
Definition clampValue (value min max : Q) : Q := Qmin max (Qmax min value).

Section Objects.
Context {V : Type}.

(** [omit]: the own entries of [obj] whose key is not among [keys], as a
    new object. *)
Definition omit (obj : gmap string V) (keys : list string + string) : gmap string V :=
  list_to_map
    (filter (λ entry, entry.1 ∉ wrapInArray keys) (map_to_list obj)).

(** [cleanUndefined]: a reduction over the entries that copies every
    entry but those whose value is [undefined] ([None]). *)
Definition cleanUndefined (obj : gmap string (option V)) : gmap string (option V) :=
  map_fold
    (λ key value cleaned,
       match value with
       | None => cleaned
       | Some _ => <[key := value]> cleaned
       end)
    ∅ obj.

End Objects.

Section Records.
Context {V I : Type}.

(** What [records] inherits along its prototype chain, by key: for a
    plain object the members of [Object.prototype]. *)
Variable inherited : gmap string I.

(** [key in records]: an own entry or an inherited one. *)
Definition hasProperty (records : gmap string V) (key : string) : bool :=
  bool_decide (is_Some (records !! key))
  || bool_decide (is_Some (inherited !! key)).

(** [records[key]]: the own entry, else the inherited one, else
    [undefined]. *)
Definition readProperty (records : gmap string V) (key : string) : option (V + I) :=
  match records !! key with
  | Some v => Some (inl v)
  | None => inr <$> inherited !! key
  end.

(** [ensureDefault]: [records] is changed in place; the result is the
    value returned and the new content.  The assignment happens for a key
    that is nowhere on the chain, where it makes an own entry. *)
Definition ensureDefault (key : string) (records : gmap string V) (default_ : V)
    : option (V + I) * gmap string V :=
  let records' :=
    if negb (hasProperty records key) then <[key := default_]> records
    else records in
  (readProperty records' key, records').

End Records.


(** [toAscii]: one character per byte, [String.fromCharCode(bytes[i])],
    pushed on [chars] unless nulls are ignored and the byte is 0; the
    characters are joined at the end. *)
Definition toAscii (bytes : list Byte.byte) (ignoreNulls : bool) : string :=
  let chars :=
    foldl
      (λ chars b,
         if negb (ignoreNulls && Byte.eqb b Byte.x00)
         then chars ++ [String (Ascii.ascii_of_byte b) EmptyString]
         else chars)
      [] bytes in
  String.concat "" chars.

End Utils.

(** ** JavaScript truthiness and rounding *)

Module JS.

(** A number is truthy unless it is 0 (or [NaN], which [Z] does not have). *)
Definition truthy_number (n : Z) : bool := negb (n =? 0).

(** [Maybe<number>]: [null] and [undefined] are falsy as well. *)
Definition truthy_maybe_number (v : option Z) : bool :=
  match v with
  | Some n => truthy_number n
  | None => false
  end.

(** [Maybe<string>]: [null], [undefined] and the empty string are falsy. *)
Definition truthy_maybe_string (v : option string) : bool :=
  match v with
  | Some s => negb (String.eqb s "")
  | None => false
  end.

(** A number that is not an integer by its use: a binary64 float.  The
    library's specification of IEEE 754 gives the operations, rounding to
    nearest, ties to even. *)
Definition number : Type := spec_float.

Definition prec : Z := 53.
Definition emax : Z := 1024.

(** An integer as a number (exact up to 2^53). *)
Definition number_of_Z (z : Z) : number := binary_normalize prec emax z 0 false.

(** [x * y] and [x / y]. *)
Definition mul (x y : number) : number := SFmul prec emax x y.
Definition div (x y : number) : number := SFdiv prec emax x y.

(** [Math.round]: the nearest integer of the exact value of a finite
    number, a tie going towards plus infinity.  The result is an integer
    and is given as such; [NaN] and the infinities, which [Math.round]
    returns as they are, are outside the integers (0 here). *)
Definition Math_round (x : number) : Z :=
  match x with
  | S754_finite s m e =>
      let sm := if s then Z.neg m else Z.pos m in
      if 0 <=? e then sm * 2 ^ e
      else (2 * sm + 2 ^ (- e)) / (2 * 2 ^ (- e))
  | _ => 0
  end.

End JS.

(** ** The image of the visualisation toolkit *)

Module Vtk.

(** [0 | 1 | 2]: the i, j or k axis of index space. *)
Inductive AxisIndex := Axis0 | Axis1 | Axis2.

(** [image.getExtent()]: [xmin, xmax, ymin, ymax, zmin, zmax], inclusive. *)
Record Extent := mkExtent {
  xmin : Z; xmax : Z;
  ymin : Z; ymax : Z;
  zmin : Z; zmax : Z
}.

(** The part of a [vtkImageData] that the polygon tool touches: the
    extent, the scalars of its point data (one component per voxel) and
    the modification time that [modified()] advances. *)
Record vtkImageData := mkImage {
  extent : Extent;
  scalars : list Z;
  mtime : nat
}.

(** [image.getDimensions()]: a fresh array computed from the extent. *)
Definition getDimensions (image : vtkImageData) : list Z :=
  let e := extent image in
  [xmax e - xmin e + 1; ymax e - ymin e + 1; zmax e - zmin e + 1].

(** [BoundingBox.containsPoint(bounds, x, y, z)]. *)
Definition containsPoint (bounds : Extent) (ijk : Z * Z * Z) : bool :=
  let '(x, y, z) := ijk in
  if (x <? xmin bounds) || (x >? xmax bounds) then false
  else if (y <? ymin bounds) || (y >? ymax bounds) then false
  else if (z <? zmin bounds) || (z >? zmax bounds) then false
  else true.

(** [pixelData.setTuple(offset, [value])] on a single-component typed
    array: a write at an index outside the array is dropped. *)
Definition setTuple (offset : Z) (value : Z) (pixelData : list Z) : list Z :=
  if (0 <=? offset) && (offset <? Z.of_nat (length pixelData))
  then <[Z.to_nat offset := value]> pixelData
  else pixelData.

(** [image.modified()]. *)
Definition modified (image : vtkImageData) : vtkImageData :=
  {| extent := extent image; scalars := scalars image; mtime := S (mtime image) |}.

Definition with_scalars (image : vtkImageData) (pixelData : list Z) : vtkImageData :=
  {| extent := extent image; scalars := pixelData; mtime := mtime image |}.

(** The functions of the external libraries whose results the tool only
    passes on.  [coord] is the type of a continuous coordinate.
    - [worldToIndex image pt]: the toolkit's world-to-index transform;
    - [computeOffsetIndex extent ijk]: the toolkit's offset of a voxel in
      the scalar array, which depends on the image through its extent;
    - [fillPolyCells size pts]: the cells [(x, y)] that the rasteriser's
      [fillPoly(grid, pts, val)] visits for a grid of that size, in the
      order in which it calls [grid.setAtUnsafe(x, y, val)] on them. *)
Class Toolkit (coord : Type) := {
  worldToIndex : vtkImageData → coord * coord * coord → coord * coord * coord;
  computeOffsetIndex : Extent → Z * Z * Z → Z;
  fillPolyCells : list Z → list (coord * coord) → list (Z * Z)
}.

End Vtk.

(** ** The stores the components read and write *)

Module Store.
Import Vtk.

(** [RGBAColor]: an array of four channel values. *)
Definition RGBAColor := list Z.

(** [SegmentMask]: one labelled value of a segment group. *)
Record SegmentMask := mkSegment {
  value : Z;
  name : string;
  color : RGBAColor;
  visible : bool;
  locked : bool
}.

(** [Partial<SegmentMask>]: the fields an update carries. *)
Record SegmentUpdate := mkUpdate {
  upd_value : option Z;
  upd_name : option string;
  upd_color : option RGBAColor;
  upd_visible : option bool;
  upd_locked : option bool
}.

(** The metadata of a segment group, as the polygon tool's menu reads it:
    [segments.order] lists the values, [segments.byValue] holds the
    segment of each value. *)
Record SegmentGroupMetadata := mkMetadata {
  group_name : string;
  order : list Z;
  byValue : gmap Z SegmentMask
}.

Record SegmentGroupStore := mkSegmentGroupStore {
  metadataByID : gmap string SegmentGroupMetadata;
  dataIndex : gmap string vtkImageData
}.

Record PaintToolStore := mkPaintToolStore {
  activeSegmentGroupID : option string;
  activeSegment : option Z
}.

(** The polygon store, as far as the tool calls it: [getPoints(toolId)],
    the points of a tool in world space. *)
Record PolygonStore (coord : Type) := mkPolygonStore {
  getPoints : string → list (coord * coord * coord)
}.
Arguments getPoints {coord} _ _.

(** Modelled from the spec: the store module of the segment groups is
    missing from the sources.  The spec calls segments simple records
    owned and mutated by the store through method calls; an update merges
    the given fields into the record, as an object spread does. *)
Definition applyUpdate (u : SegmentUpdate) (seg : SegmentMask) : SegmentMask :=
  {| value := default (value seg) (upd_value u);
     name := default (name seg) (upd_name u);
     color := default (color seg) (upd_color u);
     visible := default (visible seg) (upd_visible u);
     locked := default (locked seg) (upd_locked u) |}.

(** Modelled from the spec: [segmentByGroupID[groupId]], the segments of a
    group as an array in the order of [segments.order]; [None] stands for
    a group the store does not know. *)
Definition segmentByGroupID (st : SegmentGroupStore) (groupId : string)
    : option (list SegmentMask) :=
  meta ← metadataByID st !! groupId;
  Some (omap (λ v, byValue meta !! v) (order meta)).

(** Modelled from the spec: [getSegment(groupId, value)], the record the
    store holds for that value of that group, if any. *)
Definition getSegment (st : SegmentGroupStore) (groupId : string) (v : Z)
    : option SegmentMask :=
  meta ← metadataByID st !! groupId;
  byValue meta !! v.

(** Modelled from the spec: the edit of one segment within its group,
    the part of [updateSegment] below that concerns the group. *)
Definition updateGroupSegment (v : Z) (u : SegmentUpdate)
    (meta : SegmentGroupMetadata) : SegmentGroupMetadata :=
  {| group_name := group_name meta;
     order := order meta;
     byValue := alter (applyUpdate u) v (byValue meta) |}.

(** Modelled from the spec: [updateSegment(groupId, value, update)], the
    store's edit of one segment: the record held for that value of that
    group gets the given fields, nothing else in the store changes, and a
    value or group the store does not hold leaves it as it is. *)
Definition updateSegment (groupId : string) (v : Z) (u : SegmentUpdate)
    (st : SegmentGroupStore) : SegmentGroupStore :=
  {| metadataByID := alter (updateGroupSegment v u) groupId (metadataByID st);
     dataIndex := dataIndex st |}.

(** Modelled from the spec: [setActiveSegment(value)] of the paint store
    records the value as the active segment. *)
Definition setActiveSegment (v : option Z) (paint : PaintToolStore) : PaintToolStore :=
  {| activeSegmentGroupID := activeSegmentGroupID paint; activeSegment := v |}.

(** The segments of a group, normalised by value with
    [normalizeForStore(segments, 'value')]. *)
Definition normalizedGroup (groupName : string) (segs : list SegmentMask)
    : SegmentGroupMetadata :=
  let normalized := Utils.normalizeForStore segs value in
  {| group_name := groupName; order := normalized.1; byValue := normalized.2 |}.

(** The representation this gives a group: [order] lists the values of
    [byValue], and a segment is filed under its own value. *)
Definition group_wf (meta : SegmentGroupMetadata) : Prop :=
  list_to_set (order meta) = dom (byValue meta)
  ∧ map_Forall (λ v seg, value seg = v) (byValue meta).

End Store.

(** ** PolygonTool.vue *)

Module PolygonTool.
Import Vtk Store.

(** [IGrid2D], as far as the accessor implements it.  [setAtUnsafe]
    writes into the image it was created for; the image is threaded
    through as state. *)
Record IGrid2D := mkGrid {
  size : list Z;
  setAtUnsafe : Z → Z → Z → vtkImageData → bool * vtkImageData
}.

(** [useSliceInfo]: the slice and its axis of the view, when known. *)
Record SliceInfo := mkSliceInfo {
  slice_of : Z;
  axisIndex : AxisIndex
}.

Definition axis_nat (axisIdx : AxisIndex) : nat :=
  match axisIdx with Axis0 => 0%nat | Axis1 => 1%nat | Axis2 => 2%nat end.

(** [point = [a, b]; point.splice(axisIdx, 0, slice)]: the slice is put
    in at the position of the axis. *)
Definition convertTo3D (axisIdx : AxisIndex) (slice a b : Z) : Z * Z * Z :=
  match axisIdx with
  | Axis0 => (slice, a, b)
  | Axis1 => (a, slice, b)
  | Axis2 => (a, b, slice)
  end.

(** [output.splice(axis, 1)] on a three-element point: the coordinate
    of the axis is taken out. *)
Definition dropAxis {coord : Type} (axis : AxisIndex) (pt : coord * coord * coord)
    : coord * coord :=
  let '(x, y, z) := pt in
  match axis with
  | Axis0 => (y, z)
  | Axis1 => (x, z)
  | Axis2 => (x, y)
  end.

Section Tool.
Context {coord : Type} `{!Toolkit coord}.

Definition createGridAccessor (image0 : vtkImageData) (slice : Z)
    (axisIdx : AxisIndex) : IGrid2D :=
  let axisDims := delete (axis_nat axisIdx) (getDimensions image0) in
  let extent := extent image0 in
  {| size := axisDims;
     setAtUnsafe d0 d1 value image :=
       let ijk := convertTo3D axisIdx slice d0 d1 in
       if containsPoint extent ijk then
         let offset := computeOffsetIndex (Vtk.extent image) ijk in
         (* XXX assumes single-component image *)
         (true, with_scalars image (setTuple offset value (scalars image)))
       else (false, image) |}.

(** [fillPoly(grid, pts, val)] of the rasteriser: one [setAtUnsafe] call
    per visited cell. *)
Definition fillPoly (grid : IGrid2D) (pts : list (coord * coord)) (val : Z)
    (image : vtkImageData) : vtkImageData :=
  foldl (λ img cell, (setAtUnsafe grid cell.1 cell.2 val img).2)
        image (fillPolyCells (size grid) pts).

(** [slice] and [sliceAxis]: [sliceInfo.value?.slice ?? 0] and
    [sliceInfo.value?.axisIndex ?? 0]. *)
Definition slice (sliceInfo : option SliceInfo) : Z :=
  match sliceInfo with Some info => slice_of info | None => 0 end.

Definition sliceAxis (sliceInfo : option SliceInfo) : AxisIndex :=
  match sliceInfo with Some info => axisIndex info | None => Axis0 end.

(** [indexSpacePoints2D] of [rasterize]. *)
Definition indexSpacePoints2D (image : vtkImageData) (axis : AxisIndex)
    (points : list (coord * coord * coord)) : list (coord * coord) :=
  (λ pt, dropAxis axis (worldToIndex image pt)) <$> points.

(** [rasterize(toolId, segment)].  The image is an object held by the
    store under the group's ID; the writes to it show as a new entry. *)
Definition rasterize (paintStore : PaintToolStore)
    (activeToolStore : PolygonStore coord) (sliceInfo : option SliceInfo)
    (toolId : string) (segment : SegmentMask)
    (segmentGroupStore : SegmentGroupStore) : SegmentGroupStore :=
  if negb (JS.truthy_maybe_string (activeSegmentGroupID paintStore))
  then segmentGroupStore
  else
    match activeSegmentGroupID paintStore with
    | None => segmentGroupStore
    | Some id =>
        match dataIndex segmentGroupStore !! id with
        | None => segmentGroupStore
        | Some image =>
            let points := getPoints activeToolStore toolId in
            let axis := sliceAxis sliceInfo in
            let pts := indexSpacePoints2D image axis points in
            let grid := createGridAccessor image (slice sliceInfo) axis in
            let image' := modified (fillPoly grid pts (value segment) image) in
            {| metadataByID := metadataByID segmentGroupStore;
               dataIndex := <[id := image']> (dataIndex segmentGroupStore) |}
        end
    end.

End Tool.

(** A voxel lies within an extent, whose bounds are inclusive. *)
Definition within (e : Extent) (ijk : Z * Z * Z) : Prop :=
  xmin e ≤ ijk.1.1 ≤ xmax e ∧ ymin e ≤ ijk.1.2 ≤ ymax e ∧ zmin e ≤ ijk.2 ≤ zmax e.

(** The coordinate of a voxel along an axis. *)
Definition axisCoord (axis : AxisIndex) (ijk : Z * Z * Z) : Z :=
  match axis with
  | Axis0 => ijk.1.1
  | Axis1 => ijk.1.2
  | Axis2 => ijk.2
  end.

#[export] Instance within_dec (e : Extent) (ijk : Z * Z * Z) : Decision (within e ijk).
Proof. unfold within. apply _. Defined.

End PolygonTool.

(** ** SegmentList.vue *)

Module SegmentList.
Import Store.

(** [editState]: the fields of the edit dialog. *)
Record EditState := mkEditState {
  edit_name : string;
  edit_color : string;
  edit_opacity : JS.number
}.

(** The state of one segment list: its [groupId] prop and its refs. *)
Record Component := mkComponent {
  groupId : string;
  editingSegmentValue : option Z;
  editState : EditState;
  editDialog : bool
}.

(** [segments]: [segmentByGroupID[groupId] ?? []]. *)
Definition segments (st : SegmentGroupStore) (groupId : string) : list SegmentMask :=
  default [] (segmentByGroupID st groupId).

(** The callback of the watcher on [segments]: the selection is read
    from and written to the paint store. *)
Definition onSegmentsChange (segments_ : list SegmentMask)
    (paintStore : PaintToolStore) : PaintToolStore :=
  let selectedSegment := activeSegment paintStore in
  let reset :=
    match selectedSegment with
    | Some selected =>
        if JS.truthy_number selected
        then negb (bool_decide
                     (is_Some (List.find (λ seg, value seg =? selected) segments_)))
        else true
    | None => true
    end in
  if reset then
    setActiveSegment
      (match segments_ with
       | seg :: _ => Some (value seg)
       | [] => None
       end) paintStore
  else paintStore.

Definition toggleVisible (groupId : string) (v : Z) (st : SegmentGroupStore)
    : SegmentGroupStore :=
  match getSegment st groupId v with
  | None => st
  | Some segment =>
      updateSegment groupId v
        {| upd_value := None; upd_name := None; upd_color := None;
           upd_visible := Some (negb (visible segment)); upd_locked := None |} st
  end.

Definition allVisible (st : SegmentGroupStore) (groupId : string) : bool :=
  forallb visible (segments st groupId).

Definition allLocked (st : SegmentGroupStore) (groupId : string) : bool :=
  forallb locked (segments st groupId).

Definition toggleGlobalVisible (groupId : string) (st : SegmentGroupStore)
    : SegmentGroupStore :=
  let visible := negb (allVisible st groupId) in
  foldl
    (λ st' seg,
       updateSegment groupId (value seg)
         {| upd_value := None; upd_name := None; upd_color := None;
            upd_visible := Some visible; upd_locked := None |} st')
    st (segments st groupId).

Definition toggleGlobalLocked (groupId : string) (st : SegmentGroupStore)
    : SegmentGroupStore :=
  let locked := negb (allLocked st groupId) in
  foldl
    (λ st' seg,
       updateSegment groupId (value seg)
         {| upd_value := None; upd_name := None; upd_color := None;
            upd_visible := None; upd_locked := Some locked |} st')
    st (segments st groupId).

(** [editingSegment]: the segment whose value is being edited. *)
Definition editingSegment (c : Component) (st : SegmentGroupStore) : option SegmentMask :=
  match editingSegmentValue c with
  | None => None
  | Some v => getSegment st (groupId c) v
  end.

Definition toggleLock (groupId : string) (v : Z) (st : SegmentGroupStore)
    : SegmentGroupStore :=
  match getSegment st groupId v with
  | Some seg =>
      updateSegment groupId v
        {| upd_value := None; upd_name := None; upd_color := None;
           upd_visible := None; upd_locked := Some (negb (locked seg)) |} st
  | None => st
  end.

Section Editing.
(** [hexaToRGBA] of the colour utilities, which are missing from the
    sources: it is taken as given. *)
Variable hexaToRGBA : string → RGBAColor.

(** The colour [stopEditing] writes:
    [[...hexaToRGBA(editState.color).slice(0, 3),
      Math.round(editState.opacity * 255)]]. *)
Definition editedColor (e : EditState) : RGBAColor :=
  Utils.slice (hexaToRGBA (edit_color e)) 0 3
    ++ [JS.Math_round (JS.mul (edit_opacity e) (JS.number_of_Z 255))].

(** [stopEditing(commit)].  [editState.name] is a string, so the
    fallback [?? makeDefaultSegmentName(...)] is never taken. *)
Definition stopEditing (commit : bool) (c : Component) (st : SegmentGroupStore)
    : Component * SegmentGroupStore :=
  let st' :=
    if JS.truthy_maybe_number (editingSegmentValue c) && commit then
      match editingSegmentValue c with
      | Some v =>
          updateSegment (groupId c) v
            {| upd_value := None;
               upd_name := Some (edit_name (editState c));
               upd_color := Some (editedColor (editState c));
               upd_visible := None; upd_locked := None |} st
      | None => st
      end
    else st in
  ({| groupId := groupId c;
      editingSegmentValue := None;
      editState := editState c;
      editDialog := false |}, st').

End Editing.

Section EditingDialog.
(** [rgbaToHexa] of the colour utilities is missing from the sources as
    well: it is taken as given. *)
Variable rgbaToHexa : RGBAColor → string.

(** [startEditing(value)].  An [RGBAColor] has four channels by its type;
    on a shorter array [color[3]] is [undefined], and [undefined / 255] is
    [NaN]. *)
Definition startEditing (v : Z) (c : Component) (st : SegmentGroupStore) : Component :=
  let c' :=
    {| groupId := groupId c; editingSegmentValue := Some v;
       editState := editState c; editDialog := true |} in
  match editingSegment c' st with
  | None => c'
  | Some seg =>
      {| groupId := groupId c';
         editingSegmentValue := editingSegmentValue c';
         editState :=
           {| edit_name := name seg;
              edit_color := rgbaToHexa (color seg);
              edit_opacity :=
                match color seg !! 3%nat with
                | Some a => JS.div (JS.number_of_Z a) (JS.number_of_Z 255)
                | None => S754_nan
                end |};
         editDialog := editDialog c' |}
  end.

(** [invalidNames]: the names of the segments, but for the name of the
    segment being edited when that name is not empty. *)
Definition invalidNames (c : Component) (st : SegmentGroupStore) : gset string :=
  let names : gset string := list_to_set (name <$> segments st (groupId c)) in
  match name <$> editingSegment c st with
  | Some currentName =>
      if negb (String.eqb currentName "") then names ∖ {[currentName]} else names
  | None => names
  end.

End EditingDialog.

End SegmentList.

(** ** Sample data for the examples *)

Module Samples.
Import Vtk Store PolygonTool SegmentList.

(** Row-major offsets relative to the extent. *)
Definition rowMajorOffset (e : Extent) (ijk : Z * Z * Z) : Z :=
  let '(i, j, k) := ijk in
  let nx := xmax e - xmin e + 1 in
  let ny := ymax e - ymin e + 1 in
  (i - xmin e) + (j - ymin e) * nx + (k - zmin e) * nx * ny.

(** A coarse rasteriser: every cell of the bounding box of the polygon. *)
Definition boxCells (size : list Z) (pts : list (Z * Z)) : list (Z * Z) :=
  match pts with
  | [] => []
  | p :: ps =>
      let x0 := foldr Z.min p.1 (fst <$> ps) in
      let x1 := foldr Z.max p.1 (fst <$> ps) in
      let y0 := foldr Z.min p.2 (snd <$> ps) in
      let y1 := foldr Z.max p.2 (snd <$> ps) in
      y ← seqZ y0 (y1 - y0 + 1); x ← seqZ x0 (x1 - x0 + 1); [(x, y)]
  end.

(** A toolkit on integer coordinates with unit spacing and zero origin. *)
Definition gridToolkit : Toolkit Z :=
  {| worldToIndex := λ _ pt, pt;
     computeOffsetIndex := rowMajorOffset;
     fillPolyCells := boxCells |}.

Definition liver : SegmentMask :=
  {| value := 1; name := "Liver"; color := [255; 0; 0; 255];
     visible := true; locked := false |}.

Definition tumor : SegmentMask :=
  {| value := 2; name := "Tumor"; color := [0; 255; 0; 255];
     visible := false; locked := true |}.

Definition air : SegmentMask :=
  {| value := 0; name := "Air"; color := [0; 0; 0; 255];
     visible := true; locked := false |}.

Definition organs : SegmentGroupMetadata :=
  {| group_name := "Organs"; order := [1; 2];
     byValue := <[1 := liver]> (<[2 := tumor]> ∅) |}.

Definition organsAndAir : SegmentGroupMetadata :=
  {| group_name := "Organs"; order := [1; 0];
     byValue := <[1 := liver]> (<[0 := air]> ∅) |}.

(** A blank labelmap of 4 by 4 by 2 voxels. *)
Definition labelmap : vtkImageData :=
  {| extent := mkExtent 0 3 0 3 0 1; scalars := replicate 32 0; mtime := 0 |}.

Definition store1 : SegmentGroupStore :=
  {| metadataByID := <["g" := organs]> ∅; dataIndex := <["g" := labelmap]> ∅ |}.

Definition store0 : SegmentGroupStore :=
  {| metadataByID := <["g" := organsAndAir]> ∅; dataIndex := ∅ |}.

Definition paint1 : PaintToolStore :=
  {| activeSegmentGroupID := Some "g"; activeSegment := Some 2 |}.

Definition paintNone : PaintToolStore :=
  {| activeSegmentGroupID := None; activeSegment := None |}.

(** One triangle, drawn on the slice [k = 1]; it reaches past the image. *)
Definition polygons : PolygonStore Z :=
  {| getPoints := λ toolId,
       if String.eqb toolId "poly" then [(2, 1, 1); (4, 1, 1); (4, 2, 1)] else [] |}.

Definition axialSlice1 : option SliceInfo :=
  Some {| slice_of := 1; axisIndex := Axis2 |}.

Definition blue (hex : string) : RGBAColor := [0; 128; 255; 255].

Definition dialog (v : Z) : Component :=
  {| groupId := "g";
     editingSegmentValue := Some v;
     editState := {| edit_name := "Edited"; edit_color := "#0080ff";
                     edit_opacity := JS.div (JS.number_of_Z 1) (JS.number_of_Z 2) |};
     editDialog := true |}.

End Samples.

(** ** Helpers to state properties of the segment list *)

Module SegmentSpec.
Import Store.

(** A segment with its [visible] flag negated, and with its [locked]
    flag negated. *)
Definition flipVisible (seg : SegmentMask) : SegmentMask :=
  {| value := value seg; name := name seg; color := color seg;
     visible := negb (visible seg); locked := locked seg |}.

Definition flipLocked (seg : SegmentMask) : SegmentMask :=
  {| value := value seg; name := name seg; color := color seg;
     visible := visible seg; locked := negb (locked seg) |}.

(** A segment with its [visible] flag set. *)
Definition setVisible (b : bool) (seg : SegmentMask) : SegmentMask :=
  {| value := value seg; name := name seg; color := color seg;
     visible := b; locked := locked seg |}.

(** The store with [f] applied to the segment of value [v] of group [g],
    if the store holds one. *)
Definition alterSegment (f : SegmentMask → SegmentMask) (g : string) (v : Z)
    (st : SegmentGroupStore) : SegmentGroupStore :=
  {| metadataByID :=
       alter (λ meta, {| group_name := group_name meta; order := order meta;
                         byValue := alter f v (byValue meta) |})
             g (metadataByID st);
     dataIndex := dataIndex st |}.

End SegmentSpec.

(** ** More sample data *)

Module MoreSamples.
Import Store.

(** Hex conversions that agree on one colour. *)
Definition redOf (hex : string) : RGBAColor := [255; 0; 0; 255].
Definition hexOfRed (c : RGBAColor) : string := "#ff0000ff".

End MoreSamples.

(** * Properties *)

(** ** The utility functions *)

Module UtilsFacts.
Import Utils.

Lemma list_elem_of_filter_iff {A} (P : A → Prop) `{!∀ x, Decision (P x)}
    (l : list A) (x : A) :
  x ∈ filter P l ↔ x ∈ l ∧ P x.
Proof. rewrite list_elem_of_filter. tauto. Qed.

Section Partition.
Context {T : Type}.
Implicit Types (p : T → bool) (xs : list T).

Lemma partition_snoc p xs x :
  partition p (xs ++ [x]) =
    if p x then ((partition p xs).1 ++ [x], (partition p xs).2)
    else ((partition p xs).1, (partition p xs).2 ++ [x]).
Proof. unfold partition. by rewrite foldl_app. Qed.

Lemma partition_filter p xs :
  partition p xs = (filter (λ x, p x = true) xs, filter (λ x, p x = false) xs).
Proof.
  induction xs as [|x xs IH] using rev_ind; [done|].
  rewrite partition_snoc, IH, !filter_app. simpl.
  rewrite !filter_cons, !filter_nil.
  destruct (p x) eqn:Hp; simpl; repeat case_decide; try congruence;
    by rewrite ?app_nil_r.
Qed.

Lemma filter_split_length p xs :
  (length (filter (λ x, p x = true) xs) + length (filter (λ x, p x = false) xs)
   = length xs)%nat.
Proof.
  induction xs as [|x xs IH]; [done|].
  rewrite !filter_cons.
  destruct (p x) eqn:Hp; repeat case_decide; try congruence; simpl; lia.
Qed.

(** C3: [partition p xs] is the pair of the elements of [xs] that satisfy
    [p] and of those that do not, each in the order of [xs], and the two
    lengths add up to the length of [xs]. *)
Theorem partition_spec p xs :
  ∃ matching rest,
    partition p xs = (matching, rest)
    ∧ matching = filter (λ x, p x = true) xs
    ∧ rest = filter (λ x, p x = false) xs
    ∧ (∀ x, x ∈ matching ↔ x ∈ xs ∧ p x = true)
    ∧ (∀ x, x ∈ rest ↔ x ∈ xs ∧ p x = false)
    ∧ matching `sublist_of` xs
    ∧ rest `sublist_of` xs
    ∧ (length matching + length rest = length xs)%nat.
Proof.
  eexists _, _. split; [apply partition_filter|].
  split; [done|]. split; [done|].
  split; [intros x; apply (list_elem_of_filter_iff (λ y, p y = true))|].
  split; [intros x; apply (list_elem_of_filter_iff (λ y, p y = false))|].
  split; [apply sublist_filter|]. split; [apply sublist_filter|].
  apply filter_split_length.
Qed.
End Partition.

Section Chunk.
Context {T : Type}.
Implicit Types (arr : list T).

Lemma slice_take_drop arr (a s : nat) :
  slice arr (Z.of_nat a) (Z.of_nat a + Z.of_nat s) = take s (drop a arr).
Proof.
  unfold slice.
  rewrite (proj2 (Z.ltb_ge (Z.of_nat a) 0)) by lia.
  rewrite (proj2 (Z.ltb_ge (Z.of_nat a + Z.of_nat s) 0)) by lia.
  destruct (decide (a ≤ length arr)%nat) as [Ha|Ha].
  - replace (Z.to_nat (Z.of_nat a `min` Z.of_nat (length arr))) with a by lia.
    destruct (decide (a + s ≤ length arr)%nat) as [Hs|Hs].
    + f_equal. lia.
    + rewrite !take_ge; [done| |]; rewrite length_drop; lia.
  - replace (Z.to_nat (Z.of_nat a `min` Z.of_nat (length arr)))
      with (length arr) by lia.
    rewrite !drop_ge by lia. by rewrite !take_nil.
Qed.

Lemma ceil_div_bounds (a b : Z) :
  0 < b → (ceil_div a b - 1) * b < a ≤ ceil_div a b * b.
Proof.
  intros Hb. unfold ceil_div.
  pose proof (Z.div_mod (- a) b ltac:(lia)).
  pose proof (Z.mod_pos_bound (- a) b Hb). nia.
Qed.

Lemma chunk_pos arr (size : nat) :
  (0 < size)%nat →
  chunk arr (Z.of_nat size) =
    Some ((λ i : nat, take size (drop (i * size) arr))
            <$> seq 0 (Z.to_nat (ceil_div (Z.of_nat (length arr)) (Z.of_nat size)))).
Proof.
  intros Hs. unfold chunk.
  rewrite (proj2 (Z.eqb_neq (Z.of_nat size) 0)) by lia.
  f_equal. unfold seqZ. rewrite <-list_fmap_compose.
  apply list_fmap_ext. intros _ i _. simpl.
  rewrite Z.add_0_r, <-Nat2Z.inj_mul. apply slice_take_drop.
Qed.

Lemma concat_chunks arr (s n : nat) :
  concat ((λ i : nat, take s (drop (i * s) arr)) <$> seq 0 n) = take (n * s) arr.
Proof.
  induction n as [|n IH]; [done|].
  rewrite seq_S, fmap_app, concat_app, IH. simpl.
  rewrite app_nil_r, take_take_drop. f_equal. lia.
Qed.

Lemma chunk_lookup arr (s n i : nat) c :
  ((λ i : nat, take s (drop (i * s) arr)) <$> seq 0 n) !! i = Some c →
  (i < n)%nat ∧ c = take s (drop (i * s) arr).
Proof.
  rewrite list_lookup_fmap. intros Hc.
  destruct (seq 0 n !! i) as [j|] eqn:Hj; [|done].
  apply lookup_seq in Hj as [-> ?]. simpl in Hc. split; [done|congruence].
Qed.

(** C10: for an integer [size] of at least 1, [chunk arr size] returns
    [ceil(length arr / size)] sub-arrays whose concatenation is [arr];
    every sub-array but the last has exactly [size] elements, and the last
    one has between 1 and [size] elements when [arr] is not empty. *)
Theorem chunk_spec arr (size : Z) :
  1 ≤ size →
  ∃ chunks,
    chunk arr size = Some chunks
    ∧ (Z.of_nat (length chunks) - 1) * size < Z.of_nat (length arr)
        ≤ Z.of_nat (length chunks) * size
    ∧ concat chunks = arr
    ∧ (∀ i c, chunks !! i = Some c → (S i < length chunks)%nat →
              Z.of_nat (length c) = size)
    ∧ (arr ≠ [] → ∃ c, last chunks = Some c ∧ 1 ≤ Z.of_nat (length c) ≤ size).
Proof.
  intros Hsize.
  destruct (Z_of_nat_complete size ltac:(lia)) as [s ->].
  pose proof (ceil_div_bounds (Z.of_nat (length arr)) (Z.of_nat s) ltac:(lia)) as Hn.
  set (n := ceil_div (Z.of_nat (length arr)) (Z.of_nat s)) in *.
  assert (0 ≤ n) as Hn0 by nia.
  eexists. split; [apply chunk_pos; lia|]. fold n.
  rewrite length_fmap, length_seq, Z2Nat.id by done.
  split; [done|]. split; [|split].
  - rewrite concat_chunks. apply take_ge. nia.
  - intros i c [Hi ->]%chunk_lookup _Hlast.
    rewrite length_take, length_drop. nia.
  - intros Harr. assert (0 < n) as Hpos.
    { destruct arr; [done|]. simpl in Hn. nia. }
    destruct (Z.to_nat n) as [|m] eqn:Hm; [lia|].
    rewrite seq_S, fmap_app, last_app. simpl. eexists; split; [done|].
    rewrite length_take, length_drop. nia.
Qed.
End Chunk.

End UtilsFacts.

(** ** The polygon tool *)

Module PolygonToolFacts.
Import Vtk Store PolygonTool.

Lemma containsPoint_within (e : Extent) (ijk : Z * Z * Z) :
  containsPoint e ijk = true ↔ within e ijk.
Proof.
  destruct ijk as [[x y] z]. unfold containsPoint, within. simpl.
  destruct (Z.ltb_spec x (xmin e)), (Z.gtb_spec x (xmax e)),
    (Z.ltb_spec y (ymin e)), (Z.gtb_spec y (ymax e)),
    (Z.ltb_spec z (zmin e)), (Z.gtb_spec z (zmax e)); simpl;
    split; (discriminate || lia || reflexivity).
Qed.

Lemma convertTo3D_axisCoord axis k a b :
  axisCoord axis (convertTo3D axis k a b) = k.
Proof. by destruct axis. Qed.

Lemma convertTo3D_dropAxis axis (p : Z * Z * Z) :
  convertTo3D axis (axisCoord axis p) (dropAxis axis p).1 (dropAxis axis p).2 = p.
Proof. destruct p as [[x y] z]. by destruct axis. Qed.

(** The two conversions, as the array splices of the source. *)
Lemma convertTo3D_splice axis k a b :
  (let '(x, y, z) := convertTo3D axis k a b in [x; y; z])
  = take (axis_nat axis) [a; b] ++ k :: drop (axis_nat axis) [a; b].
Proof. by destruct axis. Qed.

Lemma dropAxis_splice {coord : Type} axis (x y z : coord) :
  (let '(a, b) := dropAxis axis (x, y, z) in [a; b])
  = delete (axis_nat axis) [x; y; z].
Proof. by destruct axis. Qed.

Lemma length_setTuple offset v px : length (setTuple offset v px) = length px.
Proof. unfold setTuple. case_match; [apply length_insert|done]. Qed.

Lemma setTuple_lookup_eq (o : nat) v px :
  (o < length px)%nat → setTuple (Z.of_nat o) v px !! o = Some v.
Proof.
  intros Ho. unfold setTuple.
  rewrite (proj2 (Z.leb_le 0 (Z.of_nat o))) by lia.
  rewrite (proj2 (Z.ltb_lt (Z.of_nat o) (Z.of_nat (length px)))) by lia.
  simpl. rewrite Nat2Z.id. by apply list_lookup_insert_eq.
Qed.

Lemma setTuple_lookup_ne offset (o : nat) v px :
  offset ≠ Z.of_nat o → setTuple offset v px !! o = px !! o.
Proof.
  intros Ho. unfold setTuple. case_match; [|done].
  apply list_lookup_insert_ne. lia.
Qed.

Section Tool.
Context {coord : Type} `{!Toolkit coord}.


Lemma setAtUnsafe_eq (image0 : vtkImageData) (k : Z) (axisIdx : AxisIndex)
    d0 d1 v image :
  setAtUnsafe (createGridAccessor image0 k axisIdx) d0 d1 v image =
    if decide (within (extent image0) (convertTo3D axisIdx k d0 d1))
    then (true,
          with_scalars image
            (setTuple (computeOffsetIndex (extent image)
                         (convertTo3D axisIdx k d0 d1)) v (scalars image)))
    else (false, image).
Proof.
  simpl. destruct (containsPoint _ _) eqn:Hc.
  - apply containsPoint_within in Hc. by rewrite decide_True.
  - rewrite decide_False; [done|]. rewrite <-containsPoint_within. congruence.
Qed.

(** The writes of a run of [setAtUnsafe] calls over a list of cells. *)
Lemma fill_cells (image0 : vtkImageData) (k : Z) (axisIdx : AxisIndex)
    (v : Z) (cells : list (Z * Z)) (image : vtkImageData) :
  extent image = extent image0 →
  let grid := createGridAccessor image0 k axisIdx in
  let voxel (cell : Z * Z) := convertTo3D axisIdx k cell.1 cell.2 in
  let image' :=
    foldl (λ img cell, (setAtUnsafe grid cell.1 cell.2 v img).2) image cells in
  extent image' = extent image0
  ∧ mtime image' = mtime image
  ∧ length (scalars image') = length (scalars image)
  ∧ (∀ cell (o : nat),
       cell ∈ cells → within (extent image0) (voxel cell) →
       computeOffsetIndex (extent image0) (voxel cell) = Z.of_nat o →
       (o < length (scalars image))%nat →
       scalars image' !! o = Some v)
  ∧ (∀ o : nat,
       (∀ cell, cell ∈ cells → within (extent image0) (voxel cell) →
                computeOffsetIndex (extent image0) (voxel cell) ≠ Z.of_nat o) →
       scalars image' !! o = scalars image !! o).
Proof.
  intros He grid voxel.
  induction cells as [|c cells IH] using rev_ind.
  { cbn [foldl]. repeat split; try done. intros ? ? Hin. by apply elem_of_nil in Hin. }
  rewrite foldl_app. cbn [foldl].
  set (prev := foldl _ image cells) in *.
  destruct IH as (IHe & IHm & IHl & IHw & IHf).
  unfold grid. rewrite setAtUnsafe_eq.
  destruct (decide (within (extent image0) (convertTo3D axisIdx k c.1 c.2)))
    as [Hin|Hout]; simpl.
  - rewrite IHe, length_setTuple. repeat split; try done.
    + intros cell o Hcell Hw Ho Hlt.
      destruct (decide (computeOffsetIndex (extent image0) (voxel c) = Z.of_nat o))
        as [Hc|Hc].
      * fold (voxel c). rewrite Hc. apply setTuple_lookup_eq. lia.
      * fold (voxel c). rewrite setTuple_lookup_ne by done.
        apply elem_of_app in Hcell as [Hcell|Hcell%list_elem_of_singleton].
        -- by eapply IHw.
        -- subst cell. done.
    + intros o Ho. rewrite setTuple_lookup_ne.
      * apply IHf. intros cell Hcell. apply Ho, elem_of_app. by left.
      * apply Ho; [|done]. apply elem_of_app. right. by apply list_elem_of_singleton.
  - repeat split; try done.
    + intros cell o Hcell Hw Ho Hlt.
      apply elem_of_app in Hcell as [Hcell|Hcell%list_elem_of_singleton].
      * by eapply IHw.
      * subst cell. done.
    + intros o Ho. apply IHf. intros cell Hcell. apply Ho, elem_of_app. by left.
Qed.

(** C8: [setAtUnsafe(d0, d1, value)] of the grid accessor writes [value]
    at the offset of the voxel [(i, j, k)] rebuilt from [(d0, d1)] and the
    slice and returns [true] when that voxel lies within the extent of the
    image; otherwise it returns [false] and leaves the image as it is.  So
    whatever cells a rasteriser visits, a scalar of the image changes only
    at the offset of a voxel within the extent. *)
Theorem setAtUnsafe_within_extent (image0 : vtkImageData) (k : Z)
    (axisIdx : AxisIndex) :
  let grid := createGridAccessor image0 k axisIdx in
  (∀ d0 d1 v image,
     setAtUnsafe grid d0 d1 v image =
       let ijk := convertTo3D axisIdx k d0 d1 in
       if decide (within (extent image0) ijk)
       then (true,
             with_scalars image
               (setTuple (computeOffsetIndex (extent image) ijk) v (scalars image)))
       else (false, image))
  ∧ (∀ pts v (o : nat),
       scalars (fillPoly grid pts v image0) !! o ≠ scalars image0 !! o →
       ∃ ijk, within (extent image0) ijk
              ∧ axisCoord axisIdx ijk = k
              ∧ computeOffsetIndex (extent image0) ijk = Z.of_nat o).
Proof.
  intros grid. split.
  { intros d0 d1 v image. apply setAtUnsafe_eq. }
  intros pts v o Hne.
  destruct (fill_cells image0 k axisIdx v (fillPolyCells (size grid) pts) image0
              eq_refl) as (_ & _ & _ & _ & Hframe).
  destruct (decide (Exists
      (λ cell, within (extent image0) (convertTo3D axisIdx k cell.1 cell.2)
               ∧ computeOffsetIndex (extent image0)
                   (convertTo3D axisIdx k cell.1 cell.2) = Z.of_nat o)
      (fillPolyCells (size grid) pts))) as [Hex|Hnex].
  - apply Exists_exists in Hex as (cell & _ & Hw & Ho).
    eexists. split; [exact Hw|]. split; [apply convertTo3D_axisCoord|exact Ho].
  - exfalso. apply Hne, Hframe. intros cell Hcell Hw Ho.
    apply Hnex, Exists_exists. eauto.
Qed.


(** What [rasterize] does to the store, in terms of its own steps. *)
Lemma rasterize_steps (paint : PaintToolStore)
    (tools : PolygonStore coord) (sliceInfo : option SliceInfo)
    (toolId : string) (segment : SegmentMask) (st : SegmentGroupStore)
    (id : string) (image : vtkImageData) :
  activeSegmentGroupID paint = Some id →
  id ≠ "" →
  dataIndex st !! id = Some image →
  let axis := sliceAxis sliceInfo in
  let k := slice sliceInfo in
  let pts := (λ pt, dropAxis axis (worldToIndex image pt)) <$> getPoints tools toolId in
  let cells := fillPolyCells (delete (axis_nat axis) (getDimensions image)) pts in
  let voxel (cell : Z * Z) := convertTo3D axis k cell.1 cell.2 in
  ∃ image',
    rasterize paint tools sliceInfo toolId segment st =
      {| metadataByID := metadataByID st;
         dataIndex := <[id := image']> (dataIndex st) |}
    ∧ extent image' = extent image
    ∧ mtime image' = S (mtime image)
    ∧ length (scalars image') = length (scalars image)
    ∧ (∀ cell (o : nat),
         cell ∈ cells → within (extent image) (voxel cell) →
         computeOffsetIndex (extent image) (voxel cell) = Z.of_nat o →
         (o < length (scalars image))%nat →
         scalars image' !! o = Some (value segment))
    ∧ (∀ o : nat,
         scalars image' !! o ≠ scalars image !! o →
         ∃ cell, cell ∈ cells
                 ∧ within (extent image) (voxel cell)
                 ∧ axisCoord axis (voxel cell) = k
                 ∧ computeOffsetIndex (extent image) (voxel cell) = Z.of_nat o).
Proof.
  intros Hid Hne Himg axis k pts cells voxel.
  exists (modified (fillPoly (createGridAccessor image k axis) pts
                      (value segment) image)).
  split.
  { unfold rasterize. rewrite Hid. cbn [JS.truthy_maybe_string].
    rewrite (proj2 (String.eqb_neq id "")) by done. cbn [negb].
    by rewrite Himg. }
  destruct (fill_cells image k axis (value segment) cells image eq_refl)
    as (He & Hm & Hl & Hw & Hf).
  split; [exact He|]. split; [exact (f_equal S Hm)|]. split; [exact Hl|].
  split; [exact Hw|].
  intros o Hchanged.
  destruct (decide (Exists
      (λ cell, within (extent image) (voxel cell)
               ∧ computeOffsetIndex (extent image) (voxel cell) = Z.of_nat o)
      cells)) as [Hex|Hnex].
  - apply Exists_exists in Hex as (cell & Hcell & Hw' & Ho).
    exists cell. split; [done|]. split; [done|].
    split; [apply convertTo3D_axisCoord|done].
  - exfalso. apply Hchanged. apply (Hf o). intros cell Hcell Hw' Ho.
    apply Hnex, Exists_exists. eauto.
Qed.


(** C1: with an active segment group whose image exists, [rasterize]
    maps the tool's points through [worldToIndex], takes the coordinate of
    the slice axis out of each, hands the resulting 2D polygon to
    [fillPoly] over the grid of the two other dimensions of the image, and
    marks the image modified.  A visited cell [(a, b)] stands for the voxel
    that has the current slice at the slice axis and [a], [b] at the two
    other axes; every such voxel within the extent holds the segment's
    value afterwards, a scalar that changed is the one of such a voxel, and
    nothing else in the store changes. *)
Theorem rasterize_fills_polygon (paint : PaintToolStore)
    (tools : PolygonStore coord) (sliceInfo : option SliceInfo)
    (toolId : string) (segment : SegmentMask) (st : SegmentGroupStore)
    (id : string) (image : vtkImageData) :
  activeSegmentGroupID paint = Some id →
  id ≠ "" →
  dataIndex st !! id = Some image →
  let axis := match sliceInfo with Some info => axisIndex info | None => Axis0 end in
  let k := match sliceInfo with Some info => slice_of info | None => 0 end in
  let e := extent image in
  let nx := xmax e - xmin e + 1 in
  let ny := ymax e - ymin e + 1 in
  let nz := zmax e - zmin e + 1 in
  let size :=
    match axis with
    | Axis0 => [ny; nz]
    | Axis1 => [nx; nz]
    | Axis2 => [nx; ny]
    end in
  let pts :=
    (λ pt, let '(x, y, z) := worldToIndex image pt in
           match axis with
           | Axis0 => (y, z)
           | Axis1 => (x, z)
           | Axis2 => (x, y)
           end) <$> getPoints tools toolId in
  let cells := fillPolyCells size pts in
  let voxel (cell : Z * Z) : Z * Z * Z :=
    match axis with
    | Axis0 => (k, cell.1, cell.2)
    | Axis1 => (cell.1, k, cell.2)
    | Axis2 => (cell.1, cell.2, k)
    end in
  let inside (ijk : Z * Z * Z) :=
    xmin e ≤ ijk.1.1 ≤ xmax e ∧ ymin e ≤ ijk.1.2 ≤ ymax e
    ∧ zmin e ≤ ijk.2 ≤ zmax e in
  ∃ image',
    rasterize paint tools sliceInfo toolId segment st =
      {| metadataByID := metadataByID st;
         dataIndex := <[id := image']> (dataIndex st) |}
    ∧ extent image' = extent image
    ∧ mtime image' = S (mtime image)
    ∧ length (scalars image') = length (scalars image)
    ∧ (∀ cell (o : nat),
         cell ∈ cells → inside (voxel cell) →
         computeOffsetIndex e (voxel cell) = Z.of_nat o →
         (o < length (scalars image))%nat →
         scalars image' !! o = Some (value segment))
    ∧ (∀ o : nat,
         scalars image' !! o ≠ scalars image !! o →
         ∃ cell, cell ∈ cells
                 ∧ inside (voxel cell)
                 ∧ computeOffsetIndex e (voxel cell) = Z.of_nat o).
Proof.
  intros Hid Hne Himg.
  destruct sliceInfo as [[k0 []]|]; cbv zeta; cbn [axisIndex slice_of];
    (edestruct rasterize_steps as (image' & Heq & He & Hm & Hl & Hw & Hf);
       [exact Hid|exact Hne|exact Himg|]);
    exists image'; (split; [exact Heq|]); (split; [exact He|]);
    (split; [exact Hm|]); (split; [exact Hl|]); (split; [exact Hw|]);
    intros o Ho; destruct (Hf o Ho) as (cell & Hcell & Hin & _ & Hoff);
    exists cell; (split; [exact Hcell|]); (split; [exact Hin|exact Hoff]).
Qed.

(** The guards of [rasterize]: without an active segment group, or
    without an image for it, the store is returned as it is. *)
Lemma rasterize_no_group (paint : PaintToolStore) (tools : PolygonStore coord)
    (sliceInfo : option SliceInfo) (toolId : string) (segment : SegmentMask)
    (st : SegmentGroupStore) :
  activeSegmentGroupID paint = None →
  rasterize paint tools sliceInfo toolId segment st = st.
Proof. intros Hid. unfold rasterize. by rewrite Hid. Qed.

Lemma rasterize_no_image (paint : PaintToolStore) (tools : PolygonStore coord)
    (sliceInfo : option SliceInfo) (toolId : string) (segment : SegmentMask)
    (st : SegmentGroupStore) (id : string) :
  activeSegmentGroupID paint = Some id →
  dataIndex st !! id = None →
  rasterize paint tools sliceInfo toolId segment st = st.
Proof.
  intros Hid Himg. unfold rasterize. rewrite Hid, Himg. by case_match.
Qed.

End Tool.
End PolygonToolFacts.

(** ** The segment list *)

Module SegmentListFacts.
Import Store SegmentList.

Lemma applyUpdate_idemp u seg : applyUpdate u (applyUpdate u seg) = applyUpdate u seg.
Proof. destruct u as [[?|] [?|] [?|] [?|] [?|]]; by destruct seg. Qed.

(** An update of a segment the store holds, as an insertion. *)
Lemma updateSegment_insert g v u st meta seg :
  metadataByID st !! g = Some meta →
  byValue meta !! v = Some seg →
  updateSegment g v u st =
    {| metadataByID :=
         <[g := {| group_name := group_name meta;
                   order := order meta;
                   byValue := <[v := applyUpdate u seg]> (byValue meta) |}]>
           (metadataByID st);
       dataIndex := dataIndex st |}.
Proof.
  intros Hg Hv. unfold updateSegment. f_equal.
  apply map_eq. intros g'. rewrite lookup_alter, lookup_insert.
  case_decide as Hgg; [subst g'|done].
  rewrite Hg. simpl. f_equal. unfold updateGroupSegment. f_equal.
  apply map_eq. intros v'. rewrite lookup_alter, lookup_insert.
  case_decide; [subst v'; by rewrite Hv|done].
Qed.

Lemma getSegment_Some st g v seg :
  getSegment st g v = Some seg ↔
  ∃ meta, metadataByID st !! g = Some meta ∧ byValue meta !! v = Some seg.
Proof.
  unfold getSegment. destruct (metadataByID st !! g) as [meta|]; simpl.
  - split; [eauto|]. by intros (? & [= <-] & ?).
  - split; [done|]. by intros (? & ? & ?).
Qed.

Lemma foldl_alter_lookup (f : SegmentMask → SegmentMask)
    (l : list SegmentMask) (m : gmap Z SegmentMask) (k : Z) :
  (∀ seg, f (f seg) = f seg) →
  foldl (λ m' seg, alter f (value seg) m') m l !! k =
    if decide (k ∈ value <$> l) then f <$> m !! k else m !! k.
Proof.
  intros Hf. revert m. induction l as [|s l IH]; intros m.
  { cbn [foldl]. case_decide as Hin; [|done]. by apply elem_of_nil in Hin. }
  cbn [foldl]. rewrite IH, lookup_alter, fmap_cons.
  assert (k ∈ value s :: (value <$> l) ↔ value s = k ∨ k ∈ value <$> l) as Hcons.
  { rewrite elem_of_cons. split; intros [?|?]; auto. }
  destruct (decide (value s = k)) as [Hk|Hk],
    (decide (k ∈ value <$> l)) as [Hl|Hl],
    (decide (k ∈ value s :: (value <$> l))) as [Hc|Hc]; try tauto;
    rewrite ?Hk; destruct (m !! k); simpl; by rewrite ?Hf.
Qed.

Lemma foldl_updateSegment g u (l : list SegmentMask) st :
  foldl (λ st' seg, updateSegment g (value seg) u st') st l =
    {| metadataByID :=
         alter (λ meta,
                  {| group_name := group_name meta;
                     order := order meta;
                     byValue :=
                       foldl (λ m' seg, alter (applyUpdate u) (value seg) m')
                             (byValue meta) l |})
               g (metadataByID st);
       dataIndex := dataIndex st |}.
Proof.
  revert st. induction l as [|s l IH]; intros st; simpl.
  - destruct st as [m d]. simpl. f_equal.
    apply map_eq. intros g'. rewrite lookup_alter. case_decide; [|done].
    subst g'. destruct (m !! g) as [[]|]; done.
  - rewrite IH. simpl. f_equal.
    apply map_eq. intros g'. rewrite !lookup_alter. case_decide; [|done].
    rewrite decide_True by done. by destruct (metadataByID st !! g).
Qed.

Lemma segments_values meta :
  group_wf meta →
  ∀ k, k ∈ value <$> omap (λ v, byValue meta !! v) (order meta)
       ↔ is_Some (byValue meta !! k).
Proof.
  intros [Hord Hkey] k. rewrite list_elem_of_fmap. split.
  - intros (seg & -> & (v & _ & Hv)%list_elem_of_omap).
    rewrite (Hkey _ _ Hv). eauto.
  - intros [seg Hseg]. exists seg. split; [by rewrite (Hkey _ _ Hseg)|].
    apply list_elem_of_omap. exists k. split; [|done].
    apply (elem_of_list_to_set (C := gset Z)). rewrite Hord.
    apply elem_of_dom. eauto.
Qed.

Lemma normalize_dom (l : list SegmentMask) (m : gmap Z SegmentMask) :
  dom (foldl (λ acc obj, <[value obj := obj]> acc) m l)
  = list_to_set (value <$> l) ∪ dom m.
Proof.
  revert m. induction l as [|s l IH]; intros m; cbn [foldl].
  - rewrite fmap_nil, list_to_set_nil. by rewrite (left_id_L ∅ (∪)).
  - rewrite IH, dom_insert_L, fmap_cons, list_to_set_cons.
    rewrite (assoc_L (∪)). f_equal. apply (comm_L (∪)).
Qed.

Lemma normalize_keys (l : list SegmentMask) (m : gmap Z SegmentMask) :
  map_Forall (λ v seg, value seg = v) m →
  map_Forall (λ v seg, value seg = v)
    (foldl (λ acc obj, <[value obj := obj]> acc) m l).
Proof.
  revert m. induction l as [|s l IH]; intros m Hm; cbn [foldl]; [done|].
  apply IH. by apply map_Forall_insert_2.
Qed.

(** A group normalised by [normalizeForStore] has the representation
    that [group_wf] asks for. *)
Lemma normalizedGroup_wf (groupName : string) (segs : list SegmentMask) :
  group_wf (normalizedGroup groupName segs).
Proof.
  split; simpl.
  - rewrite normalize_dom, dom_empty_L. by rewrite (right_id_L ∅ (∪)).
  - apply normalize_keys, map_Forall_empty.
Qed.

(** An update that leaves the value alone keeps that representation. *)
Lemma updateGroupSegment_wf (v : Z) (u : SegmentUpdate) (meta : SegmentGroupMetadata) :
  upd_value u = None →
  group_wf meta → group_wf (updateGroupSegment v u meta).
Proof.
  intros Hu [Hord Hkey]. split; simpl.
  - rewrite Hord. apply set_eq. intros k.
    rewrite !elem_of_dom, lookup_alter.
    case_decide; [subst k|done]. by rewrite fmap_is_Some.
  - intros k seg. rewrite lookup_alter. case_decide as Hk; [subst k|by apply Hkey].
    destruct (byValue meta !! v) as [seg0|] eqn:Hv; [|done].
    intros [= <-]. unfold applyUpdate. rewrite Hu. simpl. by apply Hkey.
Qed.

Lemma segments_lookup st g meta :
  metadataByID st !! g = Some meta →
  segments st g = omap (λ v, byValue meta !! v) (order meta).
Proof. intros Hg. unfold segments, segmentByGroupID. by rewrite Hg. Qed.

Lemma forallb_false_exists {A} (f : A → bool) (l : list A) :
  negb (forallb f l) = true ↔ ∃ x, x ∈ l ∧ f x = false.
Proof.
  rewrite negb_true_iff. induction l as [|x l IH]; simpl.
  - split; [done|]. intros (? & []%elem_of_nil & _).
  - rewrite andb_false_iff, IH. split.
    + intros [?|(y & ? & ?)]; [exists x|exists y]; split; try done;
        apply elem_of_cons; auto.
    + intros (y & [->|?]%elem_of_cons & ?); [by left|right; eauto].
Qed.

(** The effect of running one update over all segments of a group. *)
Lemma update_all g u st meta :
  metadataByID st !! g = Some meta →
  group_wf meta →
  foldl (λ st' seg, updateSegment g (value seg) u st') st (segments st g) =
    {| metadataByID :=
         <[g := {| group_name := group_name meta;
                   order := order meta;
                   byValue := applyUpdate u <$> byValue meta |}]>
           (metadataByID st);
       dataIndex := dataIndex st |}.
Proof.
  intros Hg Hwf. rewrite foldl_updateSegment. f_equal.
  apply map_eq. intros g'. rewrite lookup_alter, lookup_insert.
  case_decide; [subst g'|done]. rewrite Hg. simpl. do 2 f_equal.
  apply map_eq. intros k.
  rewrite foldl_alter_lookup by apply applyUpdate_idemp.
  rewrite lookup_fmap, (segments_lookup _ _ _ Hg).
  case_decide as Hin; [done|].
  rewrite segments_values in Hin by done.
  destruct (byValue meta !! k); [|done]. exfalso. eauto.
Qed.


Lemma omap_lookup_fmap (f : SegmentMask → SegmentMask) (m : gmap Z SegmentMask)
    (l : list Z) :
  omap (λ v, (f <$> m) !! v) l = f <$> omap (λ v, m !! v) l.
Proof.
  induction l as [|v l IH]; [done|]. cbn [omap list_omap].
  rewrite lookup_fmap. fold (omap (λ v, (f <$> m) !! v) l).
  fold (omap (λ v, m !! v) l). rewrite IH. by destruct (m !! v).
Qed.

Lemma segments_insert_fmap g st meta f :
  metadataByID st !! g = Some meta →
  segments
    {| metadataByID :=
         <[g := {| group_name := group_name meta;
                   order := order meta;
                   byValue := f <$> byValue meta |}]> (metadataByID st);
       dataIndex := dataIndex st |} g
  = f <$> segments st g.
Proof.
  intros Hg. rewrite (segments_lookup st g meta Hg).
  unfold segments, segmentByGroupID. simpl. rewrite lookup_insert_eq. simpl.
  apply omap_lookup_fmap.
Qed.

(** C5: [toggleGlobalVisible] shows every segment of the group when at
    least one is hidden and hides every segment when all are visible;
    [toggleGlobalLocked] does the same with the locks.  Afterwards all
    segments of the group carry the same flag, and their other fields, the
    order of the group and the rest of the store are as before. *)
Theorem toggleGlobal_sets_every_segment (g : string) (st : SegmentGroupStore)
    (meta : SegmentGroupMetadata) :
  metadataByID st !! g = Some meta →
  group_wf meta →
  let show := negb (allVisible st g) in
  let lock := negb (allLocked st g) in
  (show = true ↔ ∃ seg, seg ∈ segments st g ∧ visible seg = false)
  ∧ (lock = true ↔ ∃ seg, seg ∈ segments st g ∧ locked seg = false)
  ∧ toggleGlobalVisible g st =
      {| metadataByID :=
           <[g := {| group_name := group_name meta;
                     order := order meta;
                     byValue :=
                       (λ seg, {| value := value seg; name := name seg;
                                  color := color seg; visible := show;
                                  locked := locked seg |}) <$> byValue meta |}]>
             (metadataByID st);
         dataIndex := dataIndex st |}
  ∧ toggleGlobalLocked g st =
      {| metadataByID :=
           <[g := {| group_name := group_name meta;
                     order := order meta;
                     byValue :=
                       (λ seg, {| value := value seg; name := name seg;
                                  color := color seg; visible := visible seg;
                                  locked := lock |}) <$> byValue meta |}]>
             (metadataByID st);
         dataIndex := dataIndex st |}
  ∧ segments (toggleGlobalVisible g st) g =
      (λ seg, {| value := value seg; name := name seg; color := color seg;
                 visible := show; locked := locked seg |}) <$> segments st g
  ∧ segments (toggleGlobalLocked g st) g =
      (λ seg, {| value := value seg; name := name seg; color := color seg;
                 visible := visible seg; locked := lock |}) <$> segments st g.
Proof.
  intros Hg Hwf show lock.
  assert (toggleGlobalVisible g st =
      {| metadataByID :=
           <[g := {| group_name := group_name meta;
                     order := order meta;
                     byValue :=
                       (λ seg, {| value := value seg; name := name seg;
                                  color := color seg; visible := show;
                                  locked := locked seg |}) <$> byValue meta |}]>
             (metadataByID st);
         dataIndex := dataIndex st |}) as Hvis.
  { unfold toggleGlobalVisible. by rewrite (update_all _ _ _ _ Hg Hwf). }
  assert (toggleGlobalLocked g st =
      {| metadataByID :=
           <[g := {| group_name := group_name meta;
                     order := order meta;
                     byValue :=
                       (λ seg, {| value := value seg; name := name seg;
                                  color := color seg; visible := visible seg;
                                  locked := lock |}) <$> byValue meta |}]>
             (metadataByID st);
         dataIndex := dataIndex st |}) as Hlock.
  { unfold toggleGlobalLocked. by rewrite (update_all _ _ _ _ Hg Hwf). }
  split; [apply forallb_false_exists|]. split; [apply forallb_false_exists|].
  split; [exact Hvis|]. split; [exact Hlock|].
  split.
  - rewrite Hvis. by apply segments_insert_fmap.
  - rewrite Hlock. by apply segments_insert_fmap.
Qed.

Lemma getSegment_insert_other g v st meta seg' g' v' :
  metadataByID st !! g = Some meta →
  g' ≠ g ∨ v' ≠ v →
  getSegment
    {| metadataByID :=
         <[g := {| group_name := group_name meta;
                   order := order meta;
                   byValue := <[v := seg']> (byValue meta) |}]> (metadataByID st);
       dataIndex := dataIndex st |} g' v'
  = getSegment st g' v'.
Proof.
  intros Hg Hne. unfold getSegment. simpl.
  destruct (decide (g' = g)) as [->|Hgg].
  - rewrite lookup_insert_eq, Hg. simpl. apply lookup_insert_ne.
    destruct Hne; congruence.
  - by rewrite lookup_insert_ne.
Qed.

(** C6: for a segment the group holds, [toggleVisible] negates its
    [visible] field and [toggleLock] negates its [locked] field; its other
    fields, the other segments of the group, the order of the group and
    the rest of the store are as before. *)
Theorem toggle_changes_one_field (g : string) (v : Z) (st : SegmentGroupStore)
    (seg : SegmentMask) :
  getSegment st g v = Some seg →
  ∃ meta,
    metadataByID st !! g = Some meta
    ∧ toggleVisible g v st =
        {| metadataByID :=
             <[g := {| group_name := group_name meta;
                       order := order meta;
                       byValue :=
                         <[v := {| value := value seg; name := name seg;
                                   color := color seg;
                                   visible := negb (visible seg);
                                   locked := locked seg |}]> (byValue meta) |}]>
               (metadataByID st);
           dataIndex := dataIndex st |}
    ∧ toggleLock g v st =
        {| metadataByID :=
             <[g := {| group_name := group_name meta;
                       order := order meta;
                       byValue :=
                         <[v := {| value := value seg; name := name seg;
                                   color := color seg;
                                   visible := visible seg;
                                   locked := negb (locked seg) |}]> (byValue meta) |}]>
               (metadataByID st);
           dataIndex := dataIndex st |}
    ∧ (∀ g' v', g' ≠ g ∨ v' ≠ v →
         getSegment (toggleVisible g v st) g' v' = getSegment st g' v'
         ∧ getSegment (toggleLock g v st) g' v' = getSegment st g' v').
Proof.
  intros Hseg. pose proof Hseg as (meta & Hg & Hv)%getSegment_Some.
  exists meta. split; [done|].
  unfold toggleVisible, toggleLock. rewrite Hseg.
  rewrite !(updateSegment_insert g v _ st meta seg Hg Hv).
  split; [done|]. split; [done|].
  intros g' v' Hne. split; by apply getSegment_insert_other.
Qed.

(** The guards of the toggles: without a segment for the value, the
    store is returned as it is. *)
Lemma toggleVisible_missing g v st :
  getSegment st g v = None → toggleVisible g v st = st.
Proof. intros Hseg. unfold toggleVisible. by rewrite Hseg. Qed.

Lemma toggleLock_missing g v st :
  getSegment st g v = None → toggleLock g v st = st.
Proof. intros Hseg. unfold toggleLock. by rewrite Hseg. Qed.


Lemma find_value_Some (segments_ : list SegmentMask) (sel : Z) :
  is_Some (List.find (λ seg, value seg =? sel) segments_) ↔ sel ∈ value <$> segments_.
Proof.
  induction segments_ as [|s l IH]; simpl.
  - split; [by intros [? ?]|]. by intros ?%elem_of_nil.
  - rewrite elem_of_cons. destruct (Z.eqb_spec (value s) sel) as [Heq|Hne].
    + split; [auto|eauto].
    + rewrite IH. split; [auto|]. intros [?|?]; [congruence|done].
Qed.

(** C9: after the watcher has run on a segment list, the active segment
    is [null] or the value of a segment of the list.  It is [null] for an
    empty list; it is the value of the first segment when the previous
    selection is unset ([null], or the falsy value 0) or absent from the
    list; any other selection, being present in the list, is kept. *)
Theorem watcher_keeps_selection_valid (segments_ : list SegmentMask)
    (paint : PaintToolStore) :
  let paint' := onSegmentsChange segments_ paint in
  activeSegmentGroupID paint' = activeSegmentGroupID paint
  ∧ (activeSegment paint' = None
     ∨ ∃ seg, seg ∈ segments_ ∧ activeSegment paint' = Some (value seg))
  ∧ (segments_ = [] → activeSegment paint' = None)
  ∧ (∀ first rest, segments_ = first :: rest →
       (activeSegment paint = None
        ∨ activeSegment paint = Some 0
        ∨ ∃ sel, activeSegment paint = Some sel ∧ sel ∉ value <$> segments_) →
       activeSegment paint' = Some (value first))
  ∧ (∀ sel, activeSegment paint = Some sel → sel ≠ 0 →
            sel ∈ value <$> segments_ → paint' = paint).
Proof.
  intros paint'. subst paint'. unfold onSegmentsChange.
  destruct (activeSegment paint) as [sel|] eqn:Hsel; cycle 1.
  { (* nothing selected *)
    simpl. split; [done|]. split.
    - destruct segments_ as [|s l]; [by left|right]. exists s.
      split; [apply elem_of_cons; auto|done].
    - split; [by intros ->|]. split; [by intros ? ? -> _|]. by intros ? [=]. }
  unfold JS.truthy_number. destruct (Z.eqb_spec sel 0) as [->|Hnz]; simpl.
  { (* the selection is 0 *)
    split; [done|]. split.
    - destruct segments_ as [|s l]; [by left|right]. exists s.
      split; [apply elem_of_cons; auto|done].
    - split; [by intros ->|]. split; [by intros ? ? -> _|].
      by intros ? [= <-]. }
  destruct (decide (sel ∈ value <$> segments_)) as [Hin|Hout].
  - (* the selection is present *)
    rewrite bool_decide_true by by apply find_value_Some.
    simpl. rewrite Hsel. split; [done|]. split.
    + right. apply list_elem_of_fmap in Hin as (seg & -> & Hseg). eauto.
    + split; [intros ->; by apply elem_of_nil in Hin|].
      split; [|done].
      intros first rest -> [?|[[=]|(sel' & [= <-] & Hno)]]; done.
  - (* the selection is absent *)
    rewrite bool_decide_false by by rewrite find_value_Some.
    simpl. split; [done|]. split.
    + destruct segments_ as [|s l]; [by left|right]. exists s.
      split; [apply elem_of_cons; auto|done].
    + split; [by intros ->|]. split; [by intros ? ? -> _|].
      intros sel' [= <-] _ Hin. done.
Qed.

Lemma slice_0_3 (l : list Z) : Utils.slice l 0 3 = take 3 l.
Proof.
  unfold Utils.slice. change (0 <? 0) with false. change (3 <? 0) with false.
  cbv zeta iota. rewrite (Z.min_l 0) by lia. change (Z.to_nat 0) with 0%nat.
  rewrite drop_0, Z.sub_0_r.
  destruct (Z.min_spec 3 (Z.of_nat (length l))) as [[? ->]|[? ->]]; [done|].
  rewrite Nat2Z.id, !take_ge; [done|lia|lia].
Qed.

(** [Math_round] returns the integer within one half of the exact
    value [sm * 2 ^ e] of a finite number, the upper one at a tie. *)
Lemma Math_round_spec (s : bool) (m : positive) (e : Z) :
  let sm := if s then Z.neg m else Z.pos m in
  let n := JS.Math_round (S754_finite s m e) in
  (0 ≤ e → n = sm * 2 ^ e)
  ∧ (e < 0 → (2 * n - 1) * 2 ^ (- e) ≤ 2 * sm < (2 * n + 1) * 2 ^ (- e)).
Proof.
  intros sm n. unfold n, JS.Math_round. fold sm. split.
  - intros He. by rewrite (proj2 (Z.leb_le 0 e)).
  - intros He. rewrite (proj2 (Z.leb_gt 0 e)) by done.
    assert (0 < 2 ^ (- e)) as Hd by (apply Z.pow_pos_nonneg; lia).
    set (d := 2 ^ (- e)) in *.
    pose proof (Z.div_mod (2 * sm + d) (2 * d) ltac:(lia)) as Hdm.
    pose proof (Z.mod_pos_bound (2 * sm + d) (2 * d) ltac:(lia)) as Hmod.
    nia.
Qed.

Section Editing.
Variable hexaToRGBA : string → RGBAColor.

(** C7, as the code has it: [stopEditing(false)] changes no segment; it
    clears the editing value and closes the dialog.  [stopEditing(true)]
    on a segment whose value is not 0 writes the edited name and the colour
    made of the first three channels of the edited hex colour and of
    [alpha = Math.round(opacity * 255)] to that segment and nothing else,
    then clears the editing value and closes the dialog.  The product is
    the binary64 one; when it is a finite number [sm * 2 ^ e], [alpha] is
    the integer within one half of it, the upper one at a tie. *)
Theorem stopEditing_commit_or_cancel (c : Component) (st : SegmentGroupStore) :
  stopEditing hexaToRGBA false c st =
    ({| groupId := groupId c; editingSegmentValue := None;
        editState := editState c; editDialog := false |}, st)
  ∧ (∀ v seg,
       editingSegmentValue c = Some v → v ≠ 0 →
       editingSegment c st = Some seg →
       ∃ meta alpha,
         metadataByID st !! groupId c = Some meta
         ∧ match SFmul 53 1024 (edit_opacity (editState c))
                   (binary_normalize 53 1024 255 0 false) with
           | S754_zero _ => alpha = 0
           | S754_finite s m e =>
               let sm := if s then Z.neg m else Z.pos m in
               (0 ≤ e → alpha = sm * 2 ^ e)
               ∧ (e < 0 →
                  (2 * alpha - 1) * 2 ^ (- e) ≤ 2 * sm
                  < (2 * alpha + 1) * 2 ^ (- e))
           | _ => True
           end
         ∧ stopEditing hexaToRGBA true c st =
             ({| groupId := groupId c; editingSegmentValue := None;
                 editState := editState c; editDialog := false |},
              {| metadataByID :=
                   <[groupId c :=
                       {| group_name := group_name meta;
                          order := order meta;
                          byValue :=
                            <[v := {| value := value seg;
                                      name := edit_name (editState c);
                                      color :=
                                        take 3 (hexaToRGBA (edit_color (editState c)))
                                        ++ [alpha];
                                      visible := visible seg;
                                      locked := locked seg |}]>
                              (byValue meta) |}]>
                     (metadataByID st);
                 dataIndex := dataIndex st |})).
Proof.
  split.
  { unfold stopEditing. by rewrite andb_false_r. }
  intros v seg Hv Hnz Hseg. unfold editingSegment in Hseg. rewrite Hv in Hseg.
  pose proof Hseg as (meta & Hg & Hmv)%getSegment_Some.
  exists meta,
    (JS.Math_round (JS.mul (edit_opacity (editState c)) (JS.number_of_Z 255))).
  split; [done|]. split.
  { change (SFmul 53 1024 (edit_opacity (editState c))
              (binary_normalize 53 1024 255 0 false))
      with (JS.mul (edit_opacity (editState c)) (JS.number_of_Z 255)).
    destruct (JS.mul _ _) as [| | |s m e]; [done..|].
    apply Math_round_spec. }
  unfold stopEditing. rewrite Hv. simpl. unfold JS.truthy_number.
  rewrite (proj2 (Z.eqb_neq v 0)) by done. simpl.
  rewrite (updateSegment_insert _ v _ st meta seg Hg Hmv).
  unfold applyUpdate, editedColor. simpl. by rewrite slice_0_3.
Qed.

End Editing.

End SegmentListFacts.

(** ** The guards *)

Module GuardFacts.
Import Vtk Store PolygonTool SegmentList.
Import PolygonToolFacts SegmentListFacts.

(** C2: the guarded operations return early and leave the state as it
    is when their referent is missing: [rasterize] writes to no image when
    there is no active segment group or no image for it, and
    [toggleVisible] and [toggleLock] update nothing when the store has no
    segment for the value. *)
Theorem guarded_operations_return_early {coord : Type} `{!Toolkit coord}
    (paint : PaintToolStore) (tools : PolygonStore coord)
    (sliceInfo : option SliceInfo) (toolId : string) (segment : SegmentMask)
    (st : SegmentGroupStore) (g : string) (v : Z) :
  (activeSegmentGroupID paint = None
   ∨ (∃ id, activeSegmentGroupID paint = Some id ∧ dataIndex st !! id = None) →
   rasterize paint tools sliceInfo toolId segment st = st)
  ∧ (getSegment st g v = None →
     toggleVisible g v st = st ∧ toggleLock g v st = st).
Proof.
  split.
  - intros [Hnone|(id & Hid & Himg)].
    + by apply rasterize_no_group.
    + by eapply rasterize_no_image.
  - intros Hseg. split; [by apply toggleVisible_missing|by apply toggleLock_missing].
Qed.

End GuardFacts.

(** ** Examples *)

Module Examples.
Import Vtk Store PolygonTool SegmentList Samples.
Import UtilsFacts PolygonToolFacts SegmentListFacts GuardFacts.

Example partition_negative :
  Utils.partition (λ n, n <? 0) [1; 2; -4; -7; 4; 22] = ([-4; -7], [1; 2; 4; 22]).
Proof. reflexivity. Qed.

Example chunk_five_by_two :
  Utils.chunk [1; 2; 3; 4; 5] 2 = Some [[1; 2]; [3; 4]; [5]].
Proof. reflexivity. Qed.

Example chunk_size_zero : Utils.chunk [1; 2; 3] 0 = None.
Proof. reflexivity. Qed.

Example chunk_negative_size : Utils.chunk [1; 2; 3] (-2) = Some [].
Proof. reflexivity. Qed.

Example organs_normalized : normalizedGroup "Organs" [liver; tumor] = organs.
Proof. vm_compute. reflexivity. Qed.

Example watcher_resets_zero :
  activeSegment
    (onSegmentsChange [liver; air]
       {| activeSegmentGroupID := Some "g"; activeSegment := Some 0 |})
  = Some 1.
Proof. reflexivity. Qed.

Lemma chunk_spec_witness :
  1 ≤ 2
  ∧ ∃ chunks,
      Utils.chunk [1; 2; 3; 4; 5] 2 = Some chunks
      ∧ (Z.of_nat (length chunks) - 1) * 2 < Z.of_nat (length [1; 2; 3; 4; 5])
          ≤ Z.of_nat (length chunks) * 2
      ∧ concat chunks = [1; 2; 3; 4; 5]
      ∧ (∀ i c, chunks !! i = Some c → (S i < length chunks)%nat →
                Z.of_nat (length c) = 2)
      ∧ ([1; 2; 3; 4; 5] ≠ [] →
         ∃ c, last chunks = Some c ∧ 1 ≤ Z.of_nat (length c) ≤ 2).
Proof.
  split; [lia|]. apply (chunk_spec [1; 2; 3; 4; 5] 2). lia.
Defined.

Example rasterize_triangle :
  scalars <$>
    dataIndex (@rasterize Z gridToolkit paint1 polygons axialSlice1 "poly" tumor store1)
      !! "g"
  = Some [0; 0; 0; 0;  0; 0; 0; 0;  0; 0; 0; 0;  0; 0; 0; 0;
          0; 0; 0; 0;  0; 0; 2; 2;  0; 0; 2; 2;  0; 0; 0; 0].
Proof. vm_compute. reflexivity. Qed.

Lemma guarded_operations_witness :
  (activeSegmentGroupID paintNone = None
   ∧ @rasterize Z gridToolkit paintNone polygons axialSlice1 "poly" tumor store1 = store1)
  ∧ (activeSegmentGroupID paint1 = Some "g" ∧ dataIndex store0 !! "g" = None
     ∧ @rasterize Z gridToolkit paint1 polygons axialSlice1 "poly" tumor store0 = store0)
  ∧ (getSegment store1 "g" 3 = None
     ∧ toggleVisible "g" 3 store1 = store1 ∧ toggleLock "g" 3 store1 = store1).
Proof.
  assert (activeSegmentGroupID paintNone = None) as H1 by reflexivity.
  assert (activeSegmentGroupID paint1 = Some "g") as H2 by reflexivity.
  assert (dataIndex store0 !! "g" = None) as H3 by reflexivity.
  assert (getSegment store1 "g" 3 = None) as H4 by reflexivity.
  split; [|split].
  - split; [exact H1|].
    exact (proj1 (@guarded_operations_return_early Z gridToolkit paintNone
                    polygons axialSlice1 "poly" tumor store1 "g" 3)
             (or_introl H1)).
  - split; [exact H2|]. split; [exact H3|].
    exact (proj1 (@guarded_operations_return_early Z gridToolkit paint1
                    polygons axialSlice1 "poly" tumor store0 "g" 3)
             (or_intror (ex_intro _ "g" (conj H2 H3)))).
  - split; [exact H4|].
    exact (proj2 (@guarded_operations_return_early Z gridToolkit paint1
                    polygons axialSlice1 "poly" tumor store1 "g" 3) H4).
Defined.

Lemma rasterize_fills_polygon_witness :
  activeSegmentGroupID paint1 = Some "g"
  ∧ "g" ≠ ""
  ∧ dataIndex store1 !! "g" = Some labelmap
  ∧ ∃ image',
      @rasterize Z gridToolkit paint1 polygons axialSlice1 "poly" tumor store1 =
        {| metadataByID := metadataByID store1;
           dataIndex := <["g" := image']> (dataIndex store1) |}
      ∧ extent image' = extent labelmap
      ∧ mtime image' = 1%nat
      ∧ scalars image' !! 22%nat = Some 2
      ∧ scalars image' !! 21%nat = Some 0.
Proof.
  assert (activeSegmentGroupID paint1 = Some "g") as H1 by reflexivity.
  assert ("g" ≠ "") as H2 by discriminate.
  assert (dataIndex store1 !! "g" = Some labelmap) as H3 by reflexivity.
  split; [exact H1|]. split; [exact H2|]. split; [exact H3|].
  destruct (@rasterize_fills_polygon Z gridToolkit paint1 polygons axialSlice1
              "poly" tumor store1 "g" labelmap H1 H2 H3)
    as (image' & Heq & He & Hm & Hl & Hfill & Hframe).
  exists image'. split; [exact Heq|]. split; [exact He|]. split; [exact Hm|].
  split.
  - apply (Hfill (2, 1)); [|vm_compute; intuition discriminate|reflexivity|vm_compute; lia].
    vm_compute. apply elem_of_cons. by left.
  - destruct (decide (scalars image' !! 21%nat = scalars labelmap !! 21%nat))
      as [Hsame|Hdiff]; [by rewrite Hsame|].
    exfalso. destruct (Hframe 21%nat Hdiff) as (cell & Hcell & Hw & Ho).
    vm_compute in Hcell.
    repeat (apply elem_of_cons in Hcell as [->|Hcell]; [by vm_compute in Ho|]).
    by apply elem_of_nil in Hcell.
Defined.

(** With row-major offsets, a voxel within the extent has its offset
    within the scalar array of an image of that extent. *)
Lemma rowMajorOffset_in_range (e : Extent) (ijk : Z * Z * Z) :
  within e ijk →
  0 ≤ rowMajorOffset e ijk
    < (xmax e - xmin e + 1) * (ymax e - ymin e + 1) * (zmax e - zmin e + 1).
Proof.
  destruct ijk as [[i j] k]. unfold within, rowMajorOffset. simpl.
  intros (Hi & Hj & Hk).
  remember (xmax e - xmin e + 1) as nx eqn:Hnx.
  remember (ymax e - ymin e + 1) as ny eqn:Hny.
  remember (zmax e - zmin e + 1) as nz eqn:Hnz.
  remember (i - xmin e) as a eqn:Ha.
  remember (j - ymin e) as b eqn:Hb.
  remember (k - zmin e) as c eqn:Hc.
  assert (0 ≤ a ≤ nx - 1) as Hx by lia.
  assert (0 ≤ b ≤ ny - 1) as Hy by lia.
  assert (0 ≤ c ≤ nz - 1) as Hz by lia.
  clear - Hx Hy Hz.
  assert (0 ≤ b * nx ≤ (ny - 1) * nx) by nia.
  assert (0 ≤ c * nx * ny ≤ (nz - 1) * nx * ny) by nia.
  nia.
Qed.

Lemma setAtUnsafe_witness :
  setAtUnsafe (@createGridAccessor Z gridToolkit labelmap 1 Axis2) 2 1 7 labelmap
    = (true, with_scalars labelmap (<[22%nat := 7]> (scalars labelmap)))
  ∧ setAtUnsafe (@createGridAccessor Z gridToolkit labelmap 1 Axis2) 4 1 7 labelmap
    = (false, labelmap).
Proof.
  destruct (@setAtUnsafe_within_extent Z gridToolkit labelmap 1 Axis2) as [Hset _].
  split; rewrite Hset; reflexivity.
Defined.

Lemma toggleGlobal_witness :
  metadataByID store1 !! "g" = Some organs
  ∧ group_wf organs
  ∧ segments (toggleGlobalVisible "g" store1) "g" =
      [ {| value := 1; name := "Liver"; color := [255; 0; 0; 255];
           visible := true; locked := false |};
        {| value := 2; name := "Tumor"; color := [0; 255; 0; 255];
           visible := true; locked := true |} ]
  ∧ segments (toggleGlobalLocked "g" store1) "g" =
      [ {| value := 1; name := "Liver"; color := [255; 0; 0; 255];
           visible := true; locked := true |};
        {| value := 2; name := "Tumor"; color := [0; 255; 0; 255];
           visible := false; locked := true |} ].
Proof.
  assert (metadataByID store1 !! "g" = Some organs) as Hg by reflexivity.
  assert (group_wf organs) as Hwf.
  { split; [reflexivity|]. repeat apply map_Forall_insert_2; try reflexivity. apply map_Forall_empty. }
  split; [exact Hg|]. split; [exact Hwf|].
  destruct (toggleGlobal_sets_every_segment "g" store1 organs Hg Hwf)
    as (_ & _ & _ & _ & Hvis & Hlock).
  split; [exact Hvis|exact Hlock].
Defined.

Lemma toggle_changes_one_field_witness :
  getSegment store1 "g" 2 = Some tumor
  ∧ getSegment (toggleVisible "g" 2 store1) "g" 2 =
      Some {| value := 2; name := "Tumor"; color := [0; 255; 0; 255];
              visible := true; locked := true |}
  ∧ getSegment (toggleLock "g" 2 store1) "g" 2 =
      Some {| value := 2; name := "Tumor"; color := [0; 255; 0; 255];
              visible := false; locked := false |}
  ∧ getSegment (toggleVisible "g" 2 store1) "g" 1 = Some liver
  ∧ getSegment (toggleLock "g" 2 store1) "g" 1 = Some liver.
Proof.
  assert (getSegment store1 "g" 2 = Some tumor) as Hseg by reflexivity.
  split; [exact Hseg|].
  destruct (toggle_changes_one_field "g" 2 store1 tumor Hseg)
    as (meta & Hg & Hvis & Hlock & Hframe).
  split; [rewrite Hvis; unfold getSegment; simpl;
          by rewrite lookup_insert_eq; simpl; rewrite lookup_insert_eq|].
  split; [rewrite Hlock; unfold getSegment; simpl;
          by rewrite lookup_insert_eq; simpl; rewrite lookup_insert_eq|].
  assert ("g" ≠ "g" ∨ 1 ≠ 2) as Hne by (right; lia).
  destruct (Hframe "g" 1 Hne) as [-> ->]. by split.
Defined.

Lemma watcher_witness :
  activeSegment (onSegmentsChange [liver; tumor] paint1) = Some 2
  ∧ activeSegment (onSegmentsChange [liver] paint1) = Some 1
  ∧ activeSegment (onSegmentsChange [] paint1) = None.
Proof.
  split; [|split].
  - destruct (watcher_keeps_selection_valid [liver; tumor] paint1)
      as (_ & _ & _ & _ & Hkeep).
    rewrite (Hkeep 2); [reflexivity|reflexivity|lia|].
    apply elem_of_cons. right. apply elem_of_cons. by left.
  - destruct (watcher_keeps_selection_valid [liver] paint1)
      as (_ & _ & _ & Hfirst & _).
    apply (Hfirst liver []); [reflexivity|]. right. right. exists 2.
    split; [reflexivity|]. intros [[=]|[]%elem_of_nil]%elem_of_cons.
  - destruct (watcher_keeps_selection_valid [] paint1) as (_ & _ & Hnil & _).
    by apply Hnil.
Defined.

Lemma stopEditing_witness :
  editingSegmentValue (dialog 1) = Some 1
  ∧ 1 ≠ 0
  ∧ editingSegment (dialog 1) store1 = Some liver
  ∧ getSegment (stopEditing blue true (dialog 1) store1).2 "g" 1 =
      Some {| value := 1; name := "Edited"; color := [0; 128; 255; 128];
              visible := true; locked := false |}
  ∧ editingSegmentValue (stopEditing blue true (dialog 1) store1).1 = None
  ∧ editDialog (stopEditing blue true (dialog 1) store1).1 = false.
Proof.
  assert (editingSegmentValue (dialog 1) = Some 1) as H1 by reflexivity.
  assert (1 ≠ 0) as H2 by lia.
  assert (editingSegment (dialog 1) store1 = Some liver) as H3 by reflexivity.
  split; [exact H1|]. split; [exact H2|]. split; [exact H3|].
  destruct (stopEditing_commit_or_cancel blue (dialog 1) store1) as [_ Hcommit].
  destruct (Hcommit 1 liver H1 H2 H3) as (meta & alpha & Hg & Hround & ->).
  split; [|by split].
  unfold getSegment. simpl. rewrite lookup_insert_eq. simpl.
  rewrite lookup_insert_eq.
  assert (alpha = 128) as ->; [|reflexivity].
  change (SFmul 53 1024 (edit_opacity (editState (dialog 1)))
            (binary_normalize 53 1024 255 0 false))
    with (S754_finite false 8972014882652160 (-46)) in Hround.
  destruct Hround as [_ Hround].
  change (2 ^ (- -46)) with 70368744177664 in Hround. lia.
Defined.

(** C7 fails for a segment whose value is 0: the segment is being edited,
    yet [stopEditing(true)] writes nothing, and the segment keeps its
    name. *)
Lemma stopEditing_value_zero_not_written :
  editingSegment (dialog 0) store0 = Some air
  ∧ edit_name (editState (dialog 0)) ≠ name air
  ∧ (stopEditing blue true (dialog 0) store0).2 = store0
  ∧ getSegment (stopEditing blue true (dialog 0) store0).2 "g" 0 = Some air.
Proof.
  split; [reflexivity|]. split; [discriminate|]. split; reflexivity.
Qed.

End Examples.

(** * Further properties *)

(** ** Arrays and numbers *)

Module UtilsMoreFacts.
Import Utils.

Section Arrays.
Context {T : Type} `{EqDecision T}.
Implicit Types (arr a b : list T) (el : T).

Lemma indexOf_absent arr el : el ∉ arr → indexOf arr el = -1.
Proof.
  intros Hel. unfold indexOf.
  destruct (list_find (λ x, x = el) arr) as [[i x]|] eqn:Hf; [|done].
  apply list_find_Some in Hf as (Hi & -> & _).
  exfalso. apply Hel. by eapply list_elem_of_lookup_2.
Qed.

Lemma indexOf_first l1 l2 el :
  el ∉ l1 → indexOf (l1 ++ el :: l2) el = Z.of_nat (length l1).
Proof.
  intros Hel. unfold indexOf.
  destruct (list_find (λ x, x = el) (l1 ++ el :: l2)) as [[i x]|] eqn:Hf.
  - apply list_find_Some in Hf as (Hi & -> & Hbefore).
    destruct (Nat.lt_trichotomy i (length l1)) as [Hlt|[->|Hgt]]; [|done|].
    + exfalso. rewrite lookup_app_l in Hi by done.
      apply Hel. by eapply list_elem_of_lookup_2.
    + exfalso. apply (Hbefore (length l1) el); [|done|done].
      by rewrite list_lookup_middle.
  - exfalso. apply list_find_None in Hf.
    rewrite Forall_app, Forall_cons in Hf. destruct Hf as (_ & Hf & _). by apply Hf.
Qed.

Lemma removeFromArray_split l1 l2 el :
  el ∉ l1 → removeFromArray (l1 ++ el :: l2) el = l1 ++ l2.
Proof.
  intros Hel. unfold removeFromArray. rewrite indexOf_first by done.
  rewrite (proj2 (Z.gtb_gt _ _)) by lia. rewrite Nat2Z.id.
  induction l1 as [|x l1 IH]; [done|]. simpl. f_equal. apply IH.
  intros ?. apply Hel. by right.
Qed.

(** X1: when [el] occurs in the array, [removeFromArray] takes out its
    first occurrence and nothing else: the elements before it and after
    it stay, in their order. *)
Theorem removeFromArray_first arr el :
  el ∈ arr →
  ∃ l1 l2, arr = l1 ++ (el :: l2) ∧ (el ∉ l1) ∧ removeFromArray arr el = l1 ++ l2.
Proof.
  intros (l1 & l2 & -> & Hl1)%list_elem_of_split_l.
  exists l1, l2. split; [done|]. split; [done|]. by apply removeFromArray_split.
Qed.

(** X2: [removeFromArray] leaves the array as it is exactly when [el]
    does not occur in it; when it occurs, the array gets shorter by one. *)
Theorem removeFromArray_absent arr el :
  (removeFromArray arr el = arr ↔ el ∉ arr)
  ∧ (el ∈ arr → S (length (removeFromArray arr el)) = length arr).
Proof.
  assert (el ∈ arr → S (length (removeFromArray arr el)) = length arr) as Hlen.
  { intros (l1 & l2 & -> & Hl1)%list_elem_of_split_l.
    rewrite removeFromArray_split by done. rewrite !length_app. simpl. lia. }
  split; [|done]. split.
  - intros Heq Hel. apply Hlen in Hel. rewrite Heq in Hel. lia.
  - intros Hel. unfold removeFromArray. by rewrite indexOf_absent.
Qed.

(** X5: [arrayEquals] answers [true] exactly for equal arrays. *)
Theorem arrayEquals_iff a b : arrayEquals a b = true ↔ a = b.
Proof.
  unfold arrayEquals. destruct (Nat.eqb_spec (length a) (length b)) as [Hl|Hl]; simpl.
  - revert b Hl. induction a as [|x a IH]; intros [|y b] Hl; simpl in *; try done.
    rewrite andb_true_iff, bool_decide_eq_true, IH by lia.
    split; [by intros [-> ->]|by intros [= -> ->]].
  - split; [done|]. intros ->. done.
Qed.

(** X6: [arrayEqualsWithComparator] answers [true] exactly when the
    arrays have the same length and the comparator accepts every pair of
    elements at the same index. *)
Theorem arrayEqualsWithComparator_iff a b (cmp : T → T → bool) :
  arrayEqualsWithComparator a b cmp = true ↔ Forall2 (λ x y, cmp x y = true) a b.
Proof.
  unfold arrayEqualsWithComparator.
  destruct (Nat.eqb_spec (length a) (length b)) as [Hl|Hl]; simpl.
  - revert b Hl. induction a as [|x a IH]; intros [|y b] Hl; simpl in *; try done.
    rewrite andb_true_iff, IH by lia. split.
    + intros [? ?]. by constructor.
    + intros [? ?]%Forall2_cons. done.
  - split; [done|]. intros Hall. by apply Forall2_length in Hall.
Qed.
End Arrays.

(** X3: for [min <= max], [clampValue] returns a number between [min]
    and [max]: the value itself when that lies in the range, [min] when
    the value is below and [max] when it is above. *)
Theorem clampValue_range (value min max : Q) :
  (min <= max)%Q →
  (min <= clampValue value min max)%Q
  ∧ (clampValue value min max <= max)%Q
  ∧ ((min <= value)%Q → (value <= max)%Q → (clampValue value min max == value)%Q)
  ∧ ((value <= min)%Q → (clampValue value min max == min)%Q)
  ∧ ((max <= value)%Q → (clampValue value min max == max)%Q).
Proof.
  intros Hmm. unfold clampValue. split; [|split; [|split; [|split]]].
  - apply Q.min_glb; [done|]. apply Q.le_max_l.
  - apply Q.le_min_l.
  - intros Hlo Hhi. rewrite (Q.max_r min value) by done. by apply Q.min_r.
  - intros Hlo. rewrite (Q.max_l min value) by done. by apply Q.min_r.
  - intros Hhi. apply Q.min_l. eapply Qle_trans; [exact Hhi|]. apply Q.le_max_r.
Qed.

(** X4: with the bounds the wrong way round ([max < min]) [clampValue]
    returns [max] for every value. *)
Theorem clampValue_crossed (value min max : Q) :
  (max < min)%Q → (clampValue value min max == max)%Q.
Proof.
  intros Hmm. unfold clampValue. apply Q.min_l.
  eapply Qle_trans; [apply Qlt_le_weak, Hmm|]. apply Q.le_max_l.
Qed.

End UtilsMoreFacts.

(** ** Objects *)

Module ObjectFacts.
Import Utils.

Section Objects.
Context {V : Type}.

Lemma NoDup_fst_filter (P : string * V → Prop) `{!∀ x, Decision (P x)}
    (l : list (string * V)) :
  NoDup l.*1 → NoDup (filter P l).*1.
Proof.
  induction l as [|[k v] l IH]; [done|].
  rewrite fmap_cons, filter_cons. simpl. intros [Hk Hl]%NoDup_cons.
  case_decide; [|by apply IH].
  rewrite fmap_cons. apply NoDup_cons. split; [|by apply IH].
  simpl. intros (kv & -> & [_ Hin]%list_elem_of_filter)%list_elem_of_fmap.
  apply Hk, list_elem_of_fmap. eauto.
Qed.

(** X7: [omit] drops exactly the given keys: a lookup of an omitted key
    finds nothing, a lookup of any other key finds what [obj] holds. *)
Theorem omit_lookup (obj : gmap string V) (keys : list string + string) (k : string) :
  omit obj keys !! k = if decide (k ∈ wrapInArray keys) then None else obj !! k.
Proof.
  unfold omit. apply option_eq. intros x.
  rewrite <-elem_of_list_to_map
    by apply NoDup_fst_filter, NoDup_fst_map_to_list.
  rewrite list_elem_of_filter, elem_of_map_to_list. simpl.
  case_decide; split; try done; tauto.
Qed.

Lemma omit_lookup_list (obj : gmap string V) (ks : list string) (k : string) :
  omit obj (inl ks) !! k = if decide (k ∈ ks) then None else obj !! k.
Proof.
  unfold omit. apply option_eq. intros x.
  rewrite <-elem_of_list_to_map
    by apply NoDup_fst_filter, NoDup_fst_map_to_list.
  rewrite list_elem_of_filter, elem_of_map_to_list. simpl.
  case_decide; split; try done; tauto.
Qed.

(** X8: omitting in two steps is omitting the keys of both steps at
    once, and omitting no key gives the object back. *)
Theorem omit_compose (obj : gmap string V) (ks1 ks2 : list string) :
  omit (omit obj (inl ks1)) (inl ks2) = omit obj (inl (ks1 ++ ks2))
  ∧ omit obj (inl []) = obj.
Proof.
  split; apply map_eq; intros k; rewrite !omit_lookup_list.
  - repeat case_decide; try done; set_unfold; tauto.
  - case_decide as Hk; [by apply elem_of_nil in Hk|done].
Qed.

(** X9: [cleanUndefined] keeps exactly the entries whose value is
    defined, so no value of the result is [undefined], and cleaning a
    second time changes nothing. *)
Theorem cleanUndefined_lookup (obj : gmap string (option V)) :
  (∀ k, cleanUndefined obj !! k =
          match obj !! k with
          | Some (Some x) => Some (Some x)
          | _ => None
          end)
  ∧ (∀ k, cleanUndefined obj !! k ≠ Some None)
  ∧ cleanUndefined (cleanUndefined obj) = cleanUndefined obj.
Proof.
  assert (∀ m : gmap string (option V), ∀ k,
            cleanUndefined m !! k =
              match m !! k with
              | Some (Some x) => Some (Some x)
              | _ => None
              end) as Hlookup.
  { intros m. unfold cleanUndefined.
    apply (map_fold_weak_ind (λ r m, ∀ k, r !! k = match m !! k with
                                                  | Some (Some x) => Some (Some x)
                                                  | _ => None
                                                  end)).
    - intros k. by rewrite !lookup_empty.
    - intros i x m' r Hi IH k. destruct x as [x|].
      + rewrite !lookup_insert. case_decide; [done|apply IH].
      + rewrite lookup_insert. case_decide; [subst k|apply IH].
        by rewrite IH, Hi. }
  split; [apply Hlookup|]. split.
  - intros k. rewrite Hlookup. by destruct (obj !! k) as [[?|]|].
  - apply map_eq. intros k. rewrite !Hlookup. by destruct (obj !! k) as [[?|]|].
Qed.

End Objects.

Section Records.
Context {V I : Type}.
Variable inherited : gmap string I.

(** X10: [ensureDefault] never replaces an entry: an own entry is
    returned, else an inherited one is returned, and in both cases
    [records] stays as it is; only for a key that is neither is the default
    stored and returned.  No other key is touched, and a second call for
    the key, with whatever default, returns the same value and changes
    nothing. *)
Theorem ensureDefault_spec (key : string) (records : gmap string V) (default_ : V) :
  let result := (ensureDefault inherited key records default_).1 in
  let records' := (ensureDefault inherited key records default_).2 in
  match records !! key, inherited !! key with
  | Some v, _ => result = Some (inl v) ∧ records' = records
  | None, Some f => result = Some (inr f) ∧ records' = records
  | None, None => result = Some (inl default_) ∧ records' = <[key := default_]> records
  end
  ∧ (∀ k, k ≠ key → records' !! k = records !! k)
  ∧ (∀ d, ensureDefault inherited key records' d = (result, records')).
Proof.
  intros result records'.
  assert (∀ r : gmap string V,
            hasProperty inherited r key
            = match r !! key, inherited !! key with
              | None, None => false
              | _, _ => true
              end) as Hhas.
  { intros r. unfold hasProperty.
    destruct (r !! key), (inherited !! key); repeat case_bool_decide;
      try done; exfalso; eauto using is_Some_None;
      match goal with H : ¬ is_Some _ |- _ => apply H; eauto end. }
  unfold result, records', ensureDefault, readProperty. rewrite Hhas.
  destruct (records !! key) as [v|] eqn:Hown.
  - cbn [negb fst snd]. rewrite Hown.
    split; [done|]. split; [done|]. intros d.
    rewrite Hhas, Hown. cbn [negb]. by rewrite Hown.
  - destruct (inherited !! key) as [f|] eqn:Hinh.
    + cbn [negb fst snd]. rewrite Hown. cbn [fmap option_fmap option_map].
      split; [done|]. split; [done|]. intros d.
      rewrite Hhas, Hown. cbn [negb]. by rewrite Hown.
    + cbn [negb fst snd]. rewrite lookup_insert_eq. split; [done|].
      split; [intros k Hk; by apply lookup_insert_ne|]. intros d.
      rewrite Hhas, lookup_insert_eq. cbn [negb]. by rewrite lookup_insert_eq.
Qed.

End Records.

End ObjectFacts.

(** ** Bytes to characters *)

Module AsciiFacts.
Import Utils.


Lemma concat_singletons (cs : list Ascii.ascii) :
  String.concat "" ((λ c, String c EmptyString) <$> cs) = String.string_of_list_ascii cs.
Proof.
  induction cs as [|c [|c' cs] IH]; [done|done|].
  change (String.concat "" ((λ c, String c EmptyString) <$> c :: c' :: cs))
    with (String c (String.concat "" ((λ c, String c EmptyString) <$> c' :: cs))).
  by rewrite IH.
Qed.

Lemma toAscii_chars (ignoreNulls : bool) (bytes : list Byte.byte) (acc : list string) :
  foldl
    (λ chars b,
       if negb (ignoreNulls && Byte.eqb b Byte.x00)
       then chars ++ [String (Ascii.ascii_of_byte b) EmptyString]
       else chars)
    acc bytes
  = acc ++ ((λ c, String c EmptyString) <$>
              (Ascii.ascii_of_byte <$> filter (λ b : Byte.byte, negb (ignoreNulls && Byte.eqb b Byte.x00) = true) bytes)).
Proof.
  revert acc. induction bytes as [|b bytes IH]; intros acc.
  { simpl. by rewrite app_nil_r. }
  cbn [foldl]. rewrite IH, filter_cons.
  case_decide as Hb.
  - rewrite Hb. rewrite !fmap_cons, <-app_assoc. done.
  - apply not_true_is_false in Hb. by rewrite Hb.
Qed.

Lemma toAscii_filter (bytes : list Byte.byte) (ignoreNulls : bool) :
  toAscii bytes ignoreNulls
  = String.string_of_list_ascii (Ascii.ascii_of_byte <$> filter (λ b : Byte.byte, negb (ignoreNulls && Byte.eqb b Byte.x00) = true) bytes).
Proof. unfold toAscii. by rewrite toAscii_chars, app_nil_l, concat_singletons. Qed.

Lemma filter_kept_false (bytes : list Byte.byte) : filter (λ b : Byte.byte, negb (false && Byte.eqb b Byte.x00) = true) bytes = bytes.
Proof.
  induction bytes as [|b bytes IH]; [done|].
  rewrite filter_cons, decide_True by done. by rewrite IH.
Qed.

Lemma string_of_list_ascii_app (l1 l2 : list Ascii.ascii) :
  String.string_of_list_ascii (l1 ++ l2)
  = (String.string_of_list_ascii l1 +:+ String.string_of_list_ascii l2)%string.
Proof. induction l1 as [|c l1 IH]; [done|]. simpl. by rewrite IH. Qed.

Lemma length_string_of_list_ascii (l : list Ascii.ascii) :
  String.length (String.string_of_list_ascii l) = length l.
Proof. induction l as [|c l IH]; [done|]. simpl. by rewrite IH. Qed.

(** X11: without [ignoreNulls], [toAscii] gives one character per byte,
    and it gives back every string from its bytes. *)
Theorem toAscii_bytes_of_string (bytes : list Byte.byte) (s : string) :
  String.length (toAscii bytes false) = length bytes
  ∧ String.list_byte_of_string (toAscii bytes false) = bytes
  ∧ toAscii (String.list_byte_of_string s) false = s.
Proof.
  assert (∀ bs, toAscii bs false = String.string_of_list_byte bs) as Heq.
  { intros bs. by rewrite toAscii_filter, filter_kept_false. }
  rewrite !Heq. split; [|split].
  - unfold String.string_of_list_byte.
    by rewrite length_string_of_list_ascii, length_map.
  - apply String.list_byte_of_string_of_list_byte.
  - apply String.string_of_list_byte_of_string.
Qed.

(** X12: with [ignoreNulls], [toAscii] gives what it gives for the bytes
    without the zero bytes, and the result holds no NUL character. *)
Theorem toAscii_ignoreNulls (bytes : list Byte.byte) :
  toAscii bytes true
    = toAscii (filter (λ b, Byte.eqb b Byte.x00 = false) bytes) false
  ∧ Ascii.zero ∉ String.list_ascii_of_string (toAscii bytes true).
Proof.
  assert (filter (λ b : Byte.byte, negb (true && Byte.eqb b Byte.x00) = true) bytes
          = filter (λ b, Byte.eqb b Byte.x00 = false) bytes) as Hk.
  { apply list_filter_iff. intros b. simpl. apply negb_true_iff. }
  split.
  - by rewrite !toAscii_filter, filter_kept_false, Hk.
  - rewrite toAscii_filter, String.list_ascii_of_string_of_list_ascii, Hk.
    intros (b & Hz & [Hb _]%list_elem_of_filter)%list_elem_of_fmap.
    assert (b = Byte.x00) as ->; [|done].
    rewrite <-(Ascii.byte_of_ascii_of_byte b), <-Hz. reflexivity.
Qed.

(** X13: [toAscii] of two byte sequences one after the other is the two
    results one after the other. *)
Theorem toAscii_app (a b : list Byte.byte) (ignoreNulls : bool) :
  toAscii (a ++ b) ignoreNulls
  = (toAscii a ignoreNulls +:+ toAscii b ignoreNulls)%string.
Proof.
  rewrite !toAscii_filter, filter_app, fmap_app. apply string_of_list_ascii_app.
Qed.

End AsciiFacts.

(** ** Normalised lists and chunks *)

Module NormalizeFacts.
Import Utils.

Lemma omap_ext_in {A B : Type} (f g : A → option B) (l : list A) :
  (∀ x, x ∈ l → f x = g x) → omap f l = omap g l.
Proof.
  induction l as [|x l IH]; intros Hfg; [done|].
  cbn [omap list_omap]. rewrite (Hfg x) by (apply elem_of_cons; auto).
  fold (omap f l). fold (omap g l). rewrite IH; [done|].
  intros y Hy. apply Hfg, elem_of_cons. auto.
Qed.

Section Normalize.
Context {T K : Type} `{Countable K}.
Implicit Types (objects : list T) (key : T → K).

Lemma normalizeForStore_snoc objects key obj :
  (normalizeForStore (objects ++ [obj]) key).2
  = <[key obj := obj]> (normalizeForStore objects key).2.
Proof. unfold normalizeForStore. simpl. by rewrite foldl_app. Qed.

(** X14: [normalizeForStore] lists the keys of the objects in their
    order, and when no two objects share a key, looking the listed keys up
    in [byKey] gives the objects back. *)
Theorem normalizeForStore_round_trip objects key :
  NoDup (key <$> objects) →
  (normalizeForStore objects key).1 = key <$> objects
  ∧ omap (λ k, (normalizeForStore objects key).2 !! k)
         (normalizeForStore objects key).1 = objects.
Proof.
  intros Hnd. split; [done|].
  change (normalizeForStore objects key).1 with (key <$> objects).
  induction objects as [|obj objects IH] using rev_ind; [done|].
  rewrite fmap_app in Hnd. apply NoDup_app in Hnd as (Hnd & Hfresh & _).
  rewrite normalizeForStore_snoc, fmap_app, omap_app. f_equal.
  - rewrite <-(IH Hnd) at 2. apply omap_ext_in. intros k Hk.
    apply lookup_insert_ne. intros <-. apply (Hfresh _ Hk).
    apply list_elem_of_singleton. done.
  - simpl. by rewrite lookup_insert_eq.
Qed.

(** X15: when several objects share a key, [byKey] holds the last of
    them under that key; a key of no object has no entry. *)
Theorem normalizeForStore_last_wins objects key (k : K) :
  (normalizeForStore objects key).2 !! k = last (filter (λ obj, key obj = k) objects).
Proof.
  induction objects as [|obj objects IH] using rev_ind; [done|].
  rewrite normalizeForStore_snoc, filter_app, filter_cons, filter_nil, lookup_insert.
  case_decide as Hk.
  - by rewrite last_snoc.
  - by rewrite app_nil_r.
Qed.

End Normalize.

(** X16: for a [size] that is not positive [chunk] returns no chunk at
    all, but for size 0 and a non-empty array, where [Array.from] raises. *)
Theorem chunk_nonpositive_size {T : Type} (arr : list T) (size : Z) :
  size ≤ 0 →
  chunk arr size = if decide (size = 0 ∧ arr ≠ []) then None else Some [].
Proof.
  intros Hsize. unfold chunk.
  destruct (Z.eqb_spec size 0) as [->|Hnz].
  - destruct arr as [|x arr]; case_decide as Hd; try done.
    + by destruct Hd as [_ ?].
    + exfalso. apply Hd. done.
  - case_decide as Hd; [by destruct Hd|].
    assert (ceil_div (Z.of_nat (length arr)) size ≤ 0) as Hn.
    { unfold ceil_div.
      pose proof (Z.div_opp_opp (- Z.of_nat (length arr)) size Hnz) as Hq.
      rewrite Z.opp_involutive in Hq. rewrite <-Hq.
      pose proof (Z.div_pos (Z.of_nat (length arr)) (- size)). lia. }
    unfold seqZ. by rewrite Z2Nat.nonpos by done.
Qed.

End NormalizeFacts.

(** ** Rasterisation *)

Module RasterFacts.
Import Vtk Store PolygonTool PolygonToolFacts.

Section Tool.
Context {coord : Type} `{!Toolkit coord}.

Lemma image_eq (a b : vtkImageData) :
  extent a = extent b → scalars a = scalars b → mtime a = mtime b → a = b.
Proof. destruct a, b. simpl. by intros -> -> ->. Qed.

(** X17: filling the same polygon on the same slice a second time, with
    the same or with another value, leaves exactly what the second fill
    alone would have written: the later value wins on every cell, and no
    further voxel is touched. *)
Theorem fillPoly_overwrites (image : vtkImageData) (k : Z) (axisIdx : AxisIndex)
    (pts : list (coord * coord)) (v1 v2 : Z) :
  let grid := createGridAccessor image k axisIdx in
  fillPoly grid pts v2 (fillPoly grid pts v1 image) = fillPoly grid pts v2 image.
Proof.
  intros grid. unfold fillPoly.
  set (cells := fillPolyCells (size grid) pts).
  destruct (fill_cells image k axisIdx v1 cells image eq_refl)
    as (He1 & Hm1 & Hl1 & _ & Hf1).
  destruct (fill_cells image k axisIdx v2 cells image eq_refl)
    as (He2 & Hm2 & Hl2 & Hw2 & Hf2).
  destruct (fill_cells image k axisIdx v2 cells _ He1)
    as (He3 & Hm3 & Hl3 & Hw3 & Hf3).
  fold grid in He1, Hm1, Hl1, Hf1, He2, Hm2, Hl2, Hw2, Hf2, He3, Hm3, Hl3, Hw3, Hf3.
  apply image_eq; [congruence| |congruence].
  apply list_eq. intros o.
  destruct (decide (Exists
      (λ cell, within (extent image) (convertTo3D axisIdx k cell.1 cell.2)
               ∧ computeOffsetIndex (extent image)
                   (convertTo3D axisIdx k cell.1 cell.2) = Z.of_nat o)
      cells)) as [Hex|Hnex].
  - apply Exists_exists in Hex as (cell & Hcell & Hw & Ho).
    destruct (decide (o < length (scalars image))%nat) as [Hlt|Hge].
    + rewrite (Hw3 cell o Hcell Hw Ho) by lia.
      by rewrite (Hw2 cell o Hcell Hw Ho).
    + rewrite !lookup_ge_None_2; [done|lia|lia].
  - assert (∀ cell, cell ∈ cells →
              within (extent image) (convertTo3D axisIdx k cell.1 cell.2) →
              computeOffsetIndex (extent image)
                (convertTo3D axisIdx k cell.1 cell.2) ≠ Z.of_nat o) as Hno.
    { intros cell Hcell Hw Ho. apply Hnex, Exists_exists. eauto. }
    by rewrite (Hf3 o Hno), (Hf1 o Hno), (Hf2 o Hno).
Qed.

(** X18: when the current slice lies outside the extent of the image
    along the slice axis, [rasterize] changes no scalar of the image, yet
    it still marks the image modified. *)
Theorem rasterize_slice_outside (paint : PaintToolStore)
    (tools : PolygonStore coord) (sliceInfo : option SliceInfo)
    (toolId : string) (segment : SegmentMask) (st : SegmentGroupStore)
    (id : string) (image : vtkImageData) :
  activeSegmentGroupID paint = Some id →
  id ≠ "" →
  dataIndex st !! id = Some image →
  (let e := extent image in
   let '(lo, hi) :=
     match sliceAxis sliceInfo with
     | Axis0 => (xmin e, xmax e)
     | Axis1 => (ymin e, ymax e)
     | Axis2 => (zmin e, zmax e)
     end in
   slice sliceInfo < lo ∨ hi < slice sliceInfo) →
  rasterize paint tools sliceInfo toolId segment st =
    {| metadataByID := metadataByID st;
       dataIndex :=
         <[id := {| extent := extent image; scalars := scalars image;
                    mtime := S (mtime image) |}]> (dataIndex st) |}.
Proof.
  intros Hid Hne Himg Hout.
  unfold rasterize. rewrite Hid. cbn [JS.truthy_maybe_string].
  rewrite (proj2 (String.eqb_neq id "")) by done. cbn [negb]. rewrite Himg.
  do 2 f_equal. unfold fillPoly.
  set (axis := sliceAxis sliceInfo) in *. set (k := slice sliceInfo) in *.
  set (cells := fillPolyCells _ _).
  destruct (fill_cells image k axis (value segment) cells image eq_refl)
    as (He & Hm & Hl & _ & Hf).
  unfold modified. apply image_eq; cbn [extent scalars mtime];
    [exact He| |exact (f_equal S Hm)].
  apply list_eq. intros o. apply (Hf o). intros cell _ Hw _.
  unfold within in Hw. destruct axis; simpl in Hw, Hout; lia.
Qed.

End Tool.
End RasterFacts.

(** ** Toggles and the watcher *)

Module SegmentListMoreFacts.
Import Store SegmentList SegmentSpec SegmentListFacts.

Lemma alterSegment_ext f f' g v st :
  (∀ seg, getSegment st g v = Some seg → f seg = f' seg) →
  alterSegment f g v st = alterSegment f' g v st.
Proof.
  intros Hff. unfold alterSegment. f_equal.
  apply map_eq. intros g0. rewrite !lookup_alter. case_decide; [subst g0|done].
  destruct (metadataByID st !! g) as [meta|] eqn:Hg; [|done]. simpl. do 2 f_equal.
  apply map_eq. intros v0. rewrite !lookup_alter. case_decide; [subst v0|done].
  destruct (byValue meta !! v) as [seg|] eqn:Hv; [|done]. simpl. f_equal.
  apply Hff. apply getSegment_Some. eauto.
Qed.

Lemma alterSegment_id g v st : alterSegment (λ seg, seg) g v st = st.
Proof.
  unfold alterSegment. destruct st as [m d]. simpl. f_equal.
  apply map_eq. intros g0. rewrite lookup_alter. case_decide; [subst g0|done].
  destruct (m !! g) as [[n o b]|]; [|done]. simpl. do 2 f_equal.
  apply map_eq. intros v0. rewrite lookup_alter. case_decide; [subst v0|done].
  by destruct (b !! v).
Qed.

Lemma alterSegment_comm f f' g v g' v' st :
  (g = g' → v = v' → ∀ seg, f (f' seg) = f' (f seg)) →
  alterSegment f g v (alterSegment f' g' v' st)
  = alterSegment f' g' v' (alterSegment f g v st).
Proof.
  intros Hcomm. unfold alterSegment. simpl. f_equal.
  apply map_eq. intros g0. rewrite !lookup_alter.
  repeat case_decide; simplify_eq; try done;
    destruct (metadataByID st !! _) as [meta|]; simpl; try done.
  f_equal. f_equal. apply map_eq. intros v0. rewrite !lookup_alter.
  repeat case_decide; simplify_eq; try done;
    destruct (byValue meta !! _) as [seg|]; simpl; try done.
  f_equal. by apply Hcomm.
Qed.

Lemma alterSegment_compose f f' g v st :
  alterSegment f g v (alterSegment f' g v st) = alterSegment (λ seg, f (f' seg)) g v st.
Proof.
  unfold alterSegment. simpl. f_equal.
  apply map_eq. intros g0. rewrite !lookup_alter.
  repeat case_decide; simplify_eq; try done.
  destruct (metadataByID st !! _) as [meta|]; simpl; [|done].
  f_equal. f_equal. apply map_eq. intros v0. rewrite !lookup_alter.
  repeat case_decide; simplify_eq; try done.
  by destruct (byValue meta !! _).
Qed.

Lemma toggleVisible_alter g v st : toggleVisible g v st = alterSegment flipVisible g v st.
Proof.
  unfold toggleVisible. destruct (getSegment st g v) as [seg|] eqn:Hseg.
  - change (updateSegment g v ?u st) with (alterSegment (applyUpdate u) g v st).
    apply alterSegment_ext. intros seg' Hseg'. by simplify_eq.
  - rewrite <-(alterSegment_id g v st) at 1. apply alterSegment_ext.
    intros seg' Hseg'. by simplify_eq.
Qed.

Lemma toggleLock_alter g v st : toggleLock g v st = alterSegment flipLocked g v st.
Proof.
  unfold toggleLock. destruct (getSegment st g v) as [seg|] eqn:Hseg.
  - change (updateSegment g v ?u st) with (alterSegment (applyUpdate u) g v st).
    apply alterSegment_ext. intros seg' Hseg'. by simplify_eq.
  - rewrite <-(alterSegment_id g v st) at 1. apply alterSegment_ext.
    intros seg' Hseg'. by simplify_eq.
Qed.

(** X19: toggling the visibility of a segment twice, or its lock twice,
    gives the store back as it was. *)
Theorem toggle_twice (g : string) (v : Z) (st : SegmentGroupStore) :
  toggleVisible g v (toggleVisible g v st) = st
  ∧ toggleLock g v (toggleLock g v st) = st.
Proof.
  rewrite !toggleVisible_alter, !toggleLock_alter, !alterSegment_compose.
  split; rewrite <-(alterSegment_id g v st) at 2; apply alterSegment_ext;
    intros [] _; unfold flipVisible, flipLocked; simpl; by rewrite negb_involutive.
Qed.

(** X20: the toggles commute: the visibility toggle and the lock toggle
    on any two segments, and two toggles of the same kind on any two
    segments, can be done in either order. *)
Theorem toggles_commute (g g' : string) (v v' : Z) (st : SegmentGroupStore) :
  toggleVisible g v (toggleLock g' v' st) = toggleLock g' v' (toggleVisible g v st)
  ∧ toggleVisible g v (toggleVisible g' v' st)
    = toggleVisible g' v' (toggleVisible g v st)
  ∧ toggleLock g v (toggleLock g' v' st) = toggleLock g' v' (toggleLock g v st).
Proof.
  rewrite !toggleVisible_alter, !toggleLock_alter.
  split; [|split]; by apply alterSegment_comm.
Qed.


Lemma group_wf_fmap (f : SegmentMask → SegmentMask) (meta : SegmentGroupMetadata) :
  (∀ seg, value (f seg) = value seg) →
  group_wf meta →
  group_wf {| group_name := group_name meta; order := order meta;
              byValue := f <$> byValue meta |}.
Proof.
  intros Hf [Hord Hkey]. split; simpl.
  - by rewrite dom_fmap_L.
  - intros k seg. rewrite lookup_fmap.
    destruct (byValue meta !! k) as [seg0|] eqn:Hk; [|done].
    intros [= <-]. rewrite Hf. by apply Hkey.
Qed.

Lemma forallb_setVisible (b : bool) (l : list SegmentMask) :
  l ≠ [] → forallb visible (setVisible b <$> l) = b.
Proof.
  intros Hl. induction l as [|s l IH]; [done|].
  rewrite fmap_cons. cbn [forallb visible setVisible].
  destruct l as [|s' l]; [by rewrite andb_true_r|].
  rewrite IH by done. by destruct b.
Qed.

(** X21: pressing [toggleGlobalVisible] twice leaves every segment of
    the group with the flag "all were visible" of the start: a group that
    was all visible is all visible again, any other group ends all
    hidden. *)
Theorem toggleGlobalVisible_twice (g : string) (st : SegmentGroupStore)
    (meta : SegmentGroupMetadata) :
  metadataByID st !! g = Some meta →
  group_wf meta →
  segments (toggleGlobalVisible g (toggleGlobalVisible g st)) g =
    setVisible (allVisible st g) <$> segments st g.
Proof.
  intros Hg Hwf.
  set (show := negb (allVisible st g)).
  set (meta1 := {| group_name := group_name meta; order := order meta;
                   byValue := setVisible show <$> byValue meta |}).
  assert (toggleGlobalVisible g st =
            {| metadataByID := <[g := meta1]> (metadataByID st);
               dataIndex := dataIndex st |}) as H1.
  { unfold toggleGlobalVisible. by rewrite (update_all _ _ _ _ Hg Hwf). }
  assert (segments (toggleGlobalVisible g st) g
          = setVisible show <$> segments st g) as Hs1.
  { rewrite H1. by apply segments_insert_fmap. }
  assert (metadataByID (toggleGlobalVisible g st) !! g = Some meta1) as Hg1.
  { rewrite H1. simpl. apply lookup_insert_eq. }
  assert (group_wf meta1) as Hwf1.
  { apply group_wf_fmap; [reflexivity|done]. }
  destruct (decide (segments st g = [])) as [Hnil|Hcons].
  { unfold toggleGlobalVisible at 1. rewrite Hs1, Hnil. cbn [fmap list_fmap foldl].
    by rewrite Hs1, Hnil. }
  unfold toggleGlobalVisible at 1. rewrite (update_all _ _ _ _ Hg1 Hwf1).
  rewrite (segments_insert_fmap g _ meta1 _ Hg1), Hs1, <-list_fmap_compose.
  unfold allVisible at 1. rewrite Hs1, (forallb_setVisible show) by done.
  unfold show. rewrite negb_involutive. done.
Qed.

Lemma omap_alter_values (f : SegmentMask → SegmentMask) (v : Z)
    (m : gmap Z SegmentMask) (l : list Z) :
  (∀ seg, value (f seg) = value seg) →
  value <$> omap (λ k, alter f v m !! k) l = value <$> omap (λ k, m !! k) l.
Proof.
  intros Hf. induction l as [|k l IH]; [done|]. simpl in *.
  rewrite lookup_alter. case_decide; [subst k|].
  - destruct (m !! v); simpl; [|done]. rewrite Hf. by f_equal.
  - destruct (m !! k); simpl; [|done]. by f_equal.
Qed.

Lemma segments_alterSegment_values f g v st g' :
  (∀ seg, value (f seg) = value seg) →
  value <$> segments (alterSegment f g v st) g' = value <$> segments st g'.
Proof.
  intros Hf. unfold segments, segmentByGroupID, alterSegment. simpl.
  rewrite lookup_alter. case_decide; [subst g'|done].
  destruct (metadataByID st !! g) as [meta|]; simpl; [|done].
  by apply omap_alter_values.
Qed.

(** X22: [toggleVisible] and [toggleLock] change neither which values
    the segment list of any group holds nor their order. *)
Theorem toggle_keeps_values (g g' : string) (v : Z) (st : SegmentGroupStore) :
  value <$> segments (toggleVisible g v st) g' = value <$> segments st g'
  ∧ value <$> segments (toggleLock g v st) g' = value <$> segments st g'.
Proof.
  rewrite toggleVisible_alter, toggleLock_alter.
  split; by apply segments_alterSegment_values.
Qed.

(** X23: running the watcher a second time on the same list changes
    nothing. *)
Theorem watcher_idempotent (segments_ : list SegmentMask) (paint : PaintToolStore) :
  onSegmentsChange segments_ (onSegmentsChange segments_ paint)
  = onSegmentsChange segments_ paint.
Proof.
  assert (∀ p, (activeSegment p = None ∧ segments_ = [])
               ∨ (∃ seg rest, segments_ = seg :: rest
                              ∧ activeSegment p = Some (value seg)) →
               onSegmentsChange segments_ p = p) as Hfix.
  { intros [g a] [[Ha ->]|(seg & rest & -> & Ha)]; simpl in Ha; subst a.
    - done.
    - unfold onSegmentsChange. cbn [activeSegment]. unfold JS.truthy_number.
      destruct (Z.eqb_spec (value seg) 0) as [Hz|Hz]; cbn [negb]; [done|].
      rewrite bool_decide_true; [done|].
      apply find_value_Some. rewrite fmap_cons. apply elem_of_cons. by left. }
  assert (onSegmentsChange segments_ paint = paint
          ∨ onSegmentsChange segments_ paint
            = setActiveSegment
                match segments_ with
                | seg :: _ => Some (value seg)
                | [] => None
                end paint) as [Hkeep|Hreset].
  { unfold onSegmentsChange. case_match; auto. }
  - by rewrite !Hkeep.
  - apply Hfix. rewrite Hreset.
    destruct segments_ as [|seg rest]; [by left|right; eauto].
Qed.

End SegmentListMoreFacts.

(** ** The edit dialog *)

Module DialogFacts.
Import Store SegmentList SegmentSpec SegmentListFacts SegmentListMoreFacts.

(** Every alpha channel survives the division by 255, the
    multiplication by 255 and the rounding, all in binary64: checked on
    each of the 256 values. *)
Lemma alpha_round_trip (a : Z) :
  0 ≤ a ≤ 255 →
  JS.Math_round
    (JS.mul (JS.div (JS.number_of_Z a) (JS.number_of_Z 255)) (JS.number_of_Z 255))
  = a.
Proof.
  intros Ha.
  assert (forallb
            (λ a, JS.Math_round
                    (JS.mul (JS.div (JS.number_of_Z a) (JS.number_of_Z 255))
                            (JS.number_of_Z 255)) =? a)
            (seqZ 0 256) = true) as Hall by (vm_compute; reflexivity).
  rewrite forallb_forall in Hall. apply Z.eqb_eq, Hall.
  apply list_elem_of_In, elem_of_seqZ. lia.
Qed.

Lemma take3_nth3 (l : list Z) : length l = 4%nat → take 3 l ++ [nth 3 l 0] = l.
Proof. destruct l as [|a [|b [|c [|d [|e l]]]]]; by intros [=]. Qed.

Section Dialog.
Variable hexaToRGBA : string → RGBAColor.
Variable rgbaToHexa : RGBAColor → string.

(** X24: opening the edit dialog on a segment and committing without a
    change leaves the store as it was, provided the segment's value is not
    0, its colour has its four channels with an alpha between 0 and 255,
    and the hex conversion gives the colour back. *)
Theorem edit_without_change (v : Z) (c : Component) (st : SegmentGroupStore)
    (seg : SegmentMask) :
  v ≠ 0 →
  getSegment st (groupId c) v = Some seg →
  length (color seg) = 4%nat →
  0 ≤ nth 3 (color seg) 0 ≤ 255 →
  hexaToRGBA (rgbaToHexa (color seg)) = color seg →
  stopEditing hexaToRGBA true (startEditing rgbaToHexa v c st) st
  = ({| groupId := groupId c; editingSegmentValue := None;
        editState :=
          {| edit_name := name seg;
             edit_color := rgbaToHexa (color seg);
             edit_opacity :=
               JS.div (JS.number_of_Z (nth 3 (color seg) 0)) (JS.number_of_Z 255) |};
        editDialog := false |}, st).
Proof.
  intros Hv Hseg Hlen Halpha Hhex.
  assert (color seg !! 3%nat = Some (nth 3 (color seg) 0)) as Hl3.
  { destruct (color seg) as [|? [|? [|? [|? ?]]]]; by simplify_eq/=. }
  unfold startEditing, editingSegment. cbn [editingSegmentValue groupId].
  rewrite Hseg, Hl3. unfold stopEditing.
  cbn [editingSegmentValue groupId editState JS.truthy_maybe_number].
  unfold JS.truthy_number. rewrite (proj2 (Z.eqb_neq v 0)) by done.
  cbn [negb andb]. f_equal.
  change (updateSegment ?g v ?u st) with (alterSegment (applyUpdate u) g v st).
  rewrite <-(alterSegment_id (groupId c) v st) at 2. apply alterSegment_ext.
  intros seg' Hseg'. simplify_eq. unfold applyUpdate, editedColor.
  cbn [upd_value upd_name upd_color upd_visible upd_locked default
       edit_name edit_color edit_opacity].
  rewrite Hhex, slice_0_3, alpha_round_trip, take3_nth3 by done.
  by destruct seg.
Qed.

End Dialog.

(** X25: a name is invalid in the edit dialog exactly when some segment
    of the group bears it and it is not the name of the segment being
    edited; an empty name of the segment being edited does not count. *)
Theorem invalidNames_spec (c : Component) (st : SegmentGroupStore) (n : string) :
  n ∈ invalidNames c st ↔
    (∃ seg, seg ∈ segments st (groupId c) ∧ name seg = n)
    ∧ match editingSegment c st with
      | Some current => n ≠ name current ∨ name current = ""
      | None => True
      end.
Proof.
  unfold invalidNames.
  assert (∀ names : gset string, names = list_to_set (name <$> segments st (groupId c)) →
          (n ∈ names ↔ ∃ seg, seg ∈ segments st (groupId c) ∧ name seg = n)) as Hnames.
  { intros names ->. rewrite elem_of_list_to_set, list_elem_of_fmap.
    split; intros (seg & ? & ?); eauto. }
  specialize (Hnames _ eq_refl).
  destruct (editingSegment c st) as [current|]; simpl; [|tauto].
  destruct (String.eqb_spec (name current) "") as [Hempty|Hne]; simpl.
  - rewrite Hnames. tauto.
  - rewrite elem_of_difference, elem_of_singleton, Hnames. tauto.
Qed.

End DialogFacts.

(** ** More examples *)

Module MoreExamples.
Import Utils Vtk Store PolygonTool SegmentList SegmentSpec Samples MoreSamples.
Import UtilsMoreFacts NormalizeFacts RasterFacts SegmentListMoreFacts DialogFacts.

Example removeFromArray_second_stays :
  removeFromArray [1; 2; 3; 2] 2 = [1; 3; 2].
Proof. reflexivity. Qed.

Example toAscii_skips_nulls :
  toAscii [Byte.x44; Byte.x00; Byte.x4d] true = "DM"
  ∧ String.length (toAscii [Byte.x44; Byte.x00; Byte.x4d] false) = 3%nat.
Proof. split; reflexivity. Qed.

(** The products of the binary64 neighbours of 0.3 and 0.7 with 255 round
    to the tie, and the tie goes up. *)
Example alpha_of_opacity :
  editedColor blue
    {| edit_name := "Edited"; edit_color := "#0080ff";
       edit_opacity := JS.div (JS.number_of_Z 3) (JS.number_of_Z 10) |}
  = [0; 128; 255; 77]
  ∧ editedColor blue
      {| edit_name := "Edited"; edit_color := "#0080ff";
         edit_opacity := JS.div (JS.number_of_Z 7) (JS.number_of_Z 10) |}
    = [0; 128; 255; 179].
Proof. split; vm_compute; reflexivity. Qed.

(** A plain object inherits [toString]: nothing is stored for that key,
    and the inherited member is what comes back. *)
Example ensureDefault_inherited :
  ensureDefault (<["toString" := tt]> ∅) "toString" (<["a" := 1]> ∅) 9
  = (Some (inr tt), <["a" := 1]> ∅)
  ∧ ensureDefault (<["toString" := tt]> ∅) "b" (<["a" := 1]> ∅) 9
    = (Some (inl 9), <["b" := 9]> (<["a" := 1]> ∅)).
Proof. split; reflexivity. Qed.

Lemma removeFromArray_first_witness :
  2 ∈ [1; 2; 3; 2]
  ∧ ∃ l1 l2, [1; 2; 3; 2] = l1 ++ (2 :: l2) ∧ (2 ∉ l1)
             ∧ removeFromArray [1; 2; 3; 2] 2 = l1 ++ l2.
Proof.
  assert (2 ∈ [1; 2; 3; 2]) as Hin by (apply elem_of_cons; right; apply elem_of_cons; by left).
  split; [exact Hin|]. exact (removeFromArray_first [1; 2; 3; 2] 2 Hin).
Defined.

Lemma clampValue_range_witness :
  (0 <= 10)%Q
  ∧ (0 <= clampValue 15 0 10)%Q
  ∧ (clampValue 15 0 10 <= 10)%Q
  ∧ (clampValue 15 0 10 == 10)%Q.
Proof.
  assert (0 <= 10)%Q as Hmm by discriminate.
  split; [exact Hmm|].
  destruct (clampValue_range 15 0 10 Hmm) as (Hlo & Hhi & _ & _ & Hmax).
  split; [exact Hlo|]. split; [exact Hhi|]. apply Hmax. discriminate.
Defined.

Lemma clampValue_crossed_witness :
  (0 < 10)%Q ∧ (clampValue 5 10 0 == 0)%Q.
Proof.
  assert (0 < 10)%Q as Hmm by reflexivity.
  split; [exact Hmm|]. exact (clampValue_crossed 5 10 0 Hmm).
Defined.

Lemma normalizeForStore_round_trip_witness :
  NoDup (value <$> [liver; tumor])
  ∧ (normalizeForStore [liver; tumor] value).1 = [1; 2]
  ∧ omap (λ k, (normalizeForStore [liver; tumor] value).2 !! k)
         (normalizeForStore [liver; tumor] value).1 = [liver; tumor].
Proof.
  assert (NoDup (value <$> [liver; tumor])) as Hnd.
  { apply NoDup_cons. split; [|apply NoDup_singleton].
    intros [=]%list_elem_of_singleton. }
  split; [exact Hnd|]. exact (normalizeForStore_round_trip [liver; tumor] value Hnd).
Defined.

Lemma chunk_nonpositive_size_witness :
  -2 ≤ 0 ∧ chunk [1; 2; 3] (-2) = Some [] ∧ (0 ≤ 0 ∧ chunk [1; 2; 3] 0 = None).
Proof.
  assert (-2 ≤ 0) as H2 by lia. assert (0 ≤ 0) as H0 by lia.
  split; [exact H2|]. split.
  - rewrite (chunk_nonpositive_size [1; 2; 3] (-2) H2). reflexivity.
  - split; [exact H0|]. rewrite (chunk_nonpositive_size [1; 2; 3] 0 H0). reflexivity.
Defined.

Lemma rasterize_slice_outside_witness :
  activeSegmentGroupID paint1 = Some "g"
  ∧ "g" ≠ ""
  ∧ dataIndex store1 !! "g" = Some labelmap
  ∧ @rasterize Z gridToolkit paint1 polygons
      (Some {| slice_of := 5; axisIndex := Axis2 |}) "poly" tumor store1 =
      {| metadataByID := metadataByID store1;
         dataIndex :=
           <["g" := {| extent := extent labelmap; scalars := scalars labelmap;
                       mtime := 1 |}]> (dataIndex store1) |}.
Proof.
  assert (activeSegmentGroupID paint1 = Some "g") as H1 by reflexivity.
  assert ("g" ≠ "") as H2 by discriminate.
  assert (dataIndex store1 !! "g" = Some labelmap) as H3 by reflexivity.
  split; [exact H1|]. split; [exact H2|]. split; [exact H3|].
  apply (@rasterize_slice_outside Z gridToolkit paint1 polygons
           (Some {| slice_of := 5; axisIndex := Axis2 |}) "poly" tumor store1
           "g" labelmap H1 H2 H3).
  simpl. lia.
Defined.

Lemma toggleGlobalVisible_twice_witness :
  metadataByID store1 !! "g" = Some organs
  ∧ group_wf organs
  ∧ segments (toggleGlobalVisible "g" (toggleGlobalVisible "g" store1)) "g" =
      setVisible false <$> [liver; tumor].
Proof.
  assert (metadataByID store1 !! "g" = Some organs) as Hg by reflexivity.
  assert (group_wf organs) as Hwf.
  { split; [reflexivity|].
    repeat apply map_Forall_insert_2; try reflexivity. apply map_Forall_empty. }
  split; [exact Hg|]. split; [exact Hwf|].
  exact (toggleGlobalVisible_twice "g" store1 organs Hg Hwf).
Defined.

Lemma edit_without_change_witness :
  1 ≠ 0
  ∧ getSegment store1 (groupId (dialog 1)) 1 = Some liver
  ∧ length (color liver) = 4%nat
  ∧ 0 ≤ nth 3 (color liver) 0 ≤ 255
  ∧ redOf (hexOfRed (color liver)) = color liver
  ∧ (stopEditing redOf true (startEditing hexOfRed 1 (dialog 1) store1) store1).2
    = store1.
Proof.
  assert (1 ≠ 0) as H1 by lia.
  assert (getSegment store1 (groupId (dialog 1)) 1 = Some liver) as H2 by reflexivity.
  assert (length (color liver) = 4%nat) as H3 by reflexivity.
  assert (0 ≤ nth 3 (color liver) 0 ≤ 255) as Ha by (simpl; lia).
  assert (redOf (hexOfRed (color liver)) = color liver) as H4 by reflexivity.
  split; [exact H1|]. split; [exact H2|]. split; [exact H3|]. split; [exact Ha|].
  split; [exact H4|].
  by rewrite (edit_without_change redOf hexOfRed 1 (dialog 1) store1 liver
                H1 H2 H3 Ha H4).
Defined.

End MoreExamples.
